(** * ZMK split service and USB HID report queue

    A shallow embedding of two translation units of the firmware:

    - [app/src/split/bluetooth/service.c]: the GATT write callbacks
      [split_svc_run_behavior] and [split_svc_update_indicators];
    - [app/src/usb_hid.c]: the report sender [zmk_usb_hid_send_report] and
      the drain worker [usb_hid_work_handler].

    C objects are byte memories, C integers are [Z] with the conversions of
    the source written out, external collaborators (the behavior engine, the
    HID endpoint, the USB status query) are oracles passed as arguments, and
    everything the code does to the outside world is appended to a trace. *)

From Stdlib Require Import ZArith String Ascii List Lia Bool.
Import ListNotations.
Local Open Scope Z_scope.

(** ** C integer conversions *)

Definition to_uint8 (z : Z) : Z := z mod 256.
Definition to_uint16 (z : Z) : Z := z mod 65536.

(** ** Byte memory *)

(** A memory maps a byte address to a byte.  Addresses are taken relative to
    the start of the object a pointer was derived from, so address [0] is the
    first byte of the object and addresses at or beyond its size are whatever
    the linker placed after it. *)
Definition memory := Z -> Z.

Definition zero_memory : memory := fun _ => 0.

(** [memcpy(dst, src, n)]: byte [i] of [src] lands at address [dst + i]. *)
Definition memcpy (m : memory) (dst : Z) (src : list Z) (n : Z) : memory :=
  fun a =>
    if (dst <=? a) && (a <? dst + n)
    then nth (Z.to_nat (a - dst)) src 0
    else m a.

Definition load_bytes (m : memory) (addr : Z) (n : nat) : list Z :=
  map (fun i => m (addr + Z.of_nat i)) (seq 0 n).

(** Little-endian decoding of an integer field (the targets are
    little-endian Cortex-M parts). *)
Fixpoint le_uint (bs : list Z) : Z :=
  match bs with
  | [] => 0
  | b :: rest => b + 256 * le_uint rest
  end.

Definition load_uint (m : memory) (addr : Z) (size : nat) : Z :=
  le_uint (load_bytes m addr size).

(** The C string starting at [addr]: the bytes before the first NUL, looking
    at no more than [bound] bytes. *)
Fixpoint c_string (m : memory) (addr : Z) (bound : nat) : string :=
  match bound with
  | O => EmptyString
  | S k =>
      if m addr =? 0 then EmptyString
      else String (ascii_of_N (Z.to_N (m addr))) (c_string m (addr + 1) k)
  end.

Module Service.

(** *** Constants of the Bluetooth host, <zephyr/bluetooth/att.h> and gatt.h *)

Definition BT_ATT_ERR_INVALID_OFFSET : Z := 7.
Definition BT_ATT_ERR_UNLIKELY : Z := 14.
Definition BT_GATT_ERR (att_err : Z) : Z := - att_err.

(** *** Layout of [struct zmk_split_run_behavior_payload]

    The header that declares the two structs, <zmk/split/service.h>, is not
    part of the sources at hand, so the layout is a parameter of the model:
    the offsets the compiler assigns to the fields the callback reads, and
    the two [sizeof] values it compares against. *)
Record payload_layout := {
  position_offset : Z;
  position_size : nat;
  param1_offset : Z;
  param2_offset : Z;
  state_offset : Z;
  sizeof_data : Z;            (* sizeof(struct zmk_split_run_behavior_data) *)
  behavior_dev_offset : Z;    (* offsetof(..._payload, behavior_dev) *)
  ZMK_SPLIT_RUN_BEHAVIOR_DEV_LEN : Z;
  sizeof_payload : Z          (* sizeof(struct zmk_split_run_behavior_payload) *)
}.

(** A packed payload: [behavior_dev] is a [char] array, so it follows [data]
    with no padding, and the struct ends with it. *)
Definition layout_ok (L : payload_layout) : Prop :=
  0 < sizeof_data L /\
  behavior_dev_offset L = sizeof_data L /\
  0 < ZMK_SPLIT_RUN_BEHAVIOR_DEV_LEN L /\
  sizeof_payload L = sizeof_data L + ZMK_SPLIT_RUN_BEHAVIOR_DEV_LEN L /\
  sizeof_payload L < 65536.

(** Modelled from the spec: the field list of the data model, which the
    missing header <zmk/split/service.h> declares.  The spec gives
    [position: uint16, param1: uint32, param2: uint32, state: uint8,
    identifier: byte[N]] carved out by fixed offsets, and its concrete
    scenario places the identifier at byte 11 of a 15-byte message. *)
Definition spec_layout (dev_len : Z) : payload_layout :=
  {| position_offset := 0;
     position_size := 2;
     param1_offset := 2;
     param2_offset := 6;
     state_offset := 10;
     sizeof_data := 11;
     behavior_dev_offset := 11;
     ZMK_SPLIT_RUN_BEHAVIOR_DEV_LEN := dev_len;
     sizeof_payload := 11 + dev_len |}.

(** *** The behavior collaborator *)

Record zmk_behavior_binding := {
  behavior_dev : string;
  param1 : Z;
  param2 : Z
}.

Record zmk_behavior_binding_event := {
  position : Z;
  timestamp : Z
}.

Inductive dispatch :=
| Pressed (binding : zmk_behavior_binding) (event : zmk_behavior_binding_event)
| Released (binding : zmk_behavior_binding) (event : zmk_behavior_binding_event).

(** The two entry points of the behavior engine; each returns an [int]. *)
Record behavior_engine := {
  behavior_keymap_binding_pressed :
    zmk_behavior_binding -> zmk_behavior_binding_event -> Z;
  behavior_keymap_binding_released :
    zmk_behavior_binding -> zmk_behavior_binding_event -> Z
}.

(** What the engine returned for a call that was made. *)
Definition dispatch_result (engine : behavior_engine) (d : dispatch) : Z :=
  match d with
  | Pressed binding event => behavior_keymap_binding_pressed engine binding event
  | Released binding event => behavior_keymap_binding_released engine binding event
  end.

(** *** State of the translation unit *)

Record state := {
  behavior_run_payload : memory;  (* addresses relative to &behavior_run_payload *)
  hid_indicators : memory;        (* addresses relative to &hid_indicators *)
  dispatched : list dispatch;     (* calls made into the behavior engine *)
  errors_logged : list Z;         (* LOG_ERR("Failed to invoke behavior ...") *)
  indicators_work_submitted : nat (* k_work_submit calls *)
}.

Definition initial_state : state :=
  {| behavior_run_payload := zero_memory;
     hid_indicators := zero_memory;
     dispatched := [];
     errors_logged := [];
     indicators_work_submitted := 0 |}.

Section Callbacks.

Variable L : payload_layout.
Variable engine : behavior_engine.

(** The completion test of lines 74-77, on the memory after the copy.  The
    second operand is [payload->behavior_dev[end_addr - behavior_dev_offset
    - 1]]; it is read only when the first holds, and the index is then not
    negative as long as [behavior_dev] starts where [data] ends. *)
Definition run_condition (m : memory) (end_addr : Z) : bool :=
  (sizeof_data L <? end_addr) &&
  (m (behavior_dev_offset L + (end_addr - behavior_dev_offset L - 1)) =? 0).

Definition decode_binding (m : memory) : zmk_behavior_binding :=
  {| param1 := load_uint m (param1_offset L) 4;
     param2 := load_uint m (param2_offset L) 4;
     behavior_dev :=
       c_string m (behavior_dev_offset L)
                (Z.to_nat (ZMK_SPLIT_RUN_BEHAVIOR_DEV_LEN L)) |}.

Definition decode_event (m : memory) (k_uptime_get : Z)
  : zmk_behavior_binding_event :=
  {| position := load_uint m (position_offset L) (position_size L);
     timestamp := k_uptime_get |}.

(** [split_svc_run_behavior(conn, attrs, buf, len, offset, flags)] with
    [attrs->user_data == &behavior_run_payload].

    [payload] has type [struct zmk_split_run_behavior_payload *], so the
    destination [payload + offset] of the copy is [offset] whole structs
    past the start of the object: byte address
    [offset * sizeof(struct zmk_split_run_behavior_payload)]. *)
Definition split_svc_run_behavior (k_uptime_get : Z) (st : state)
    (buf : list Z) (len offset : Z) : Z * state :=
  let end_addr := to_uint16 (offset + len) in
  if sizeof_payload L <? end_addr then
    (BT_GATT_ERR BT_ATT_ERR_INVALID_OFFSET, st)
  else
    let m := memcpy (behavior_run_payload st)
                    (offset * sizeof_payload L) buf len in
    if run_condition m end_addr then
      let binding := decode_binding m in
      let event := decode_event m k_uptime_get in
      let pressed := 0 <? load_uint m (state_offset L) 1 in
      let err :=
        if pressed
        then behavior_keymap_binding_pressed engine binding event
        else behavior_keymap_binding_released engine binding event in
      (len,
       {| behavior_run_payload := m;
          hid_indicators := hid_indicators st;
          dispatched :=
            dispatched st ++
              [if pressed then Pressed binding event
               else Released binding event];
          errors_logged :=
            if err =? 0 then errors_logged st else errors_logged st ++ [err];
          indicators_work_submitted := indicators_work_submitted st |})
    else
      (len,
       {| behavior_run_payload := m;
          hid_indicators := hid_indicators st;
          dispatched := dispatched st;
          errors_logged := errors_logged st;
          indicators_work_submitted := indicators_work_submitted st |}).

(** [split_svc_update_indicators(conn, attr, buf, len, offset, flags)].
    Here the sum is not stored in a [uint16_t]: it is compared as it is. *)
Definition split_svc_update_indicators (sizeof_zmk_hid_indicators_t : Z)
    (st : state) (buf : list Z) (len offset : Z) : Z * state :=
  if sizeof_zmk_hid_indicators_t <? offset + len then
    (BT_GATT_ERR BT_ATT_ERR_INVALID_OFFSET, st)
  else
    (len,
     {| behavior_run_payload := behavior_run_payload st;
        hid_indicators := memcpy (hid_indicators st) offset buf len;
        dispatched := dispatched st;
        errors_logged := errors_logged st;
        indicators_work_submitted := S (indicators_work_submitted st) |}).

End Callbacks.

(** Reading the payload object back: its [n] bytes from byte [offset]. *)
Definition read_payload (st : state) (offset : Z) (n : nat) : list Z :=
  load_bytes (behavior_run_payload st) offset n.

(** Two engines to run the callbacks against: one whose entry points all
    succeed, one whose entry points all fail with [-ENOTSUP] (134). *)
Definition accepting_engine : behavior_engine :=
  {| behavior_keymap_binding_pressed := fun _ _ => 0;
     behavior_keymap_binding_released := fun _ _ => 0 |}.

Definition failing_engine : behavior_engine :=
  {| behavior_keymap_binding_pressed := fun _ _ => -134;
     behavior_keymap_binding_released := fun _ _ => -134 |}.

(** The message of the spec's scenario, [position=5, param1=10, param2=0,
    state=1, behavior_dev="foo"], encoded for [spec_layout]: bytes 0-9 and
    bytes 10-14. *)
Definition scenario_first_chunk : list Z := [5; 0; 10; 0; 0; 0; 0; 0; 0; 0].
Definition scenario_second_chunk : list Z := [1; 102; 111; 111; 0].

(** The same message cut in three: the header (bytes 0-10), then the name
    in two pieces (bytes 11-12 and bytes 13-14, the NUL last). *)
Definition scenario_header : list Z := [5; 0; 10; 0; 0; 0; 0; 0; 0; 0; 1].
Definition scenario_name_start : list Z := [102; 111].
Definition scenario_name_end : list Z := [111; 0].

End Service.

Module UsbHid.

(** *** Constants of the platform *)

(** [enum usb_dc_status_code], <zephyr/drivers/usb/usb_dc.h>. *)
Inductive usb_dc_status_code :=
| USB_DC_ERROR
| USB_DC_RESET
| USB_DC_CONNECTED
| USB_DC_CONFIGURED
| USB_DC_DISCONNECTED
| USB_DC_SUSPEND
| USB_DC_RESUME
| USB_DC_INTERFACE
| USB_DC_SET_HALT
| USB_DC_CLEAR_HALT
| USB_DC_SOF
| USB_DC_UNKNOWN.

Definition ENODEV : Z := 19.
Definition ENOMSG : Z := 35.

(** *** The message queue, [K_MSGQ_DEFINE(usb_hid_msgq, ..., 8, 1)] *)

Record usb_hid_msg := {
  data : list Z;   (* uint8_t data[CONFIG_HID_INTERRUPT_EP_MPS] *)
  len : Z          (* uint8_t len *)
}.

Definition usb_hid_msgq_max_msgs : nat := 8.

(** The kernel's queue calls with [K_NO_WAIT]: none of them blocks. *)
Definition k_msgq_peek (q : list usb_hid_msg) : option usb_hid_msg := hd_error q.

Definition k_msgq_get (q : list usb_hid_msg) : list usb_hid_msg := tl q.

Definition k_msgq_put (q : list usb_hid_msg) (msg : usb_hid_msg)
  : Z * list usb_hid_msg :=
  if (length q <? usb_hid_msgq_max_msgs)%nat then (0, q ++ [msg])
  else (- ENOMSG, q).

(** *** The delayable work item [usb_hid_work] *)

Inductive work_state :=
| WorkIdle
| WorkScheduled (delay_ms : Z).

(** [k_work_schedule_for_queue]: keeps the delay of an item already
    scheduled. *)
Definition k_work_schedule (w : work_state) (delay_ms : Z) : work_state :=
  match w with
  | WorkIdle => WorkScheduled delay_ms
  | WorkScheduled d => WorkScheduled d
  end.

(** [k_work_reschedule_for_queue]: replaces whatever delay was pending. *)
Definition k_work_reschedule (w : work_state) (delay_ms : Z) : work_state :=
  WorkScheduled delay_ms.

(** *** State of the translation unit *)

Record state := {
  usb_hid_msgq : list usb_hid_msg;
  usb_hid_failed : Z;                   (* static int usb_hid_failed *)
  usb_hid_work : work_state;
  hid_writes : list (usb_hid_msg * Z);  (* hid_int_ep_write calls and results *)
  dropped_logged : list Z;              (* LOG_ERR("dropped HID message ...") *)
  queue_full_logged : nat;              (* LOG_ERR("failed to add HID ...") *)
  wakeup_requests : nat;                (* usb_wakeup_request calls *)
  elapsed_ms : Z                        (* delay the work item has waited *)
}.

Definition initial_state : state :=
  {| usb_hid_msgq := [];
     usb_hid_failed := 0;
     usb_hid_work := WorkIdle;
     hid_writes := [];
     dropped_logged := [];
     queue_full_logged := 0;
     wakeup_requests := 0;
     elapsed_ms := 0 |}.

Definition set_msgq (q : list usb_hid_msg) (st : state) : state :=
  {| usb_hid_msgq := q;
     usb_hid_failed := usb_hid_failed st;
     usb_hid_work := usb_hid_work st;
     hid_writes := hid_writes st;
     dropped_logged := dropped_logged st;
     queue_full_logged := queue_full_logged st;
     wakeup_requests := wakeup_requests st;
     elapsed_ms := elapsed_ms st |}.

Definition set_failed (n : Z) (st : state) : state :=
  {| usb_hid_msgq := usb_hid_msgq st;
     usb_hid_failed := n;
     usb_hid_work := usb_hid_work st;
     hid_writes := hid_writes st;
     dropped_logged := dropped_logged st;
     queue_full_logged := queue_full_logged st;
     wakeup_requests := wakeup_requests st;
     elapsed_ms := elapsed_ms st |}.

Definition set_work (w : work_state) (st : state) : state :=
  {| usb_hid_msgq := usb_hid_msgq st;
     usb_hid_failed := usb_hid_failed st;
     usb_hid_work := w;
     hid_writes := hid_writes st;
     dropped_logged := dropped_logged st;
     queue_full_logged := queue_full_logged st;
     wakeup_requests := wakeup_requests st;
     elapsed_ms := elapsed_ms st |}.

Definition log_write (msg : usb_hid_msg) (err : Z) (st : state) : state :=
  {| usb_hid_msgq := usb_hid_msgq st;
     usb_hid_failed := usb_hid_failed st;
     usb_hid_work := usb_hid_work st;
     hid_writes := hid_writes st ++ [(msg, err)];
     dropped_logged := dropped_logged st;
     queue_full_logged := queue_full_logged st;
     wakeup_requests := wakeup_requests st;
     elapsed_ms := elapsed_ms st |}.

Definition log_dropped (st : state) : state :=
  {| usb_hid_msgq := usb_hid_msgq st;
     usb_hid_failed := usb_hid_failed st;
     usb_hid_work := usb_hid_work st;
     hid_writes := hid_writes st;
     dropped_logged := dropped_logged st ++ [usb_hid_failed st];
     queue_full_logged := queue_full_logged st;
     wakeup_requests := wakeup_requests st;
     elapsed_ms := elapsed_ms st |}.

Definition log_queue_full (st : state) : state :=
  {| usb_hid_msgq := usb_hid_msgq st;
     usb_hid_failed := usb_hid_failed st;
     usb_hid_work := usb_hid_work st;
     hid_writes := hid_writes st;
     dropped_logged := dropped_logged st;
     queue_full_logged := S (queue_full_logged st);
     wakeup_requests := wakeup_requests st;
     elapsed_ms := elapsed_ms st |}.

Definition log_wakeup (st : state) : state :=
  {| usb_hid_msgq := usb_hid_msgq st;
     usb_hid_failed := usb_hid_failed st;
     usb_hid_work := usb_hid_work st;
     hid_writes := hid_writes st;
     dropped_logged := dropped_logged st;
     queue_full_logged := queue_full_logged st;
     wakeup_requests := S (wakeup_requests st);
     elapsed_ms := elapsed_ms st |}.

Definition wait (delay_ms : Z) (st : state) : state :=
  {| usb_hid_msgq := usb_hid_msgq st;
     usb_hid_failed := usb_hid_failed st;
     usb_hid_work := usb_hid_work st;
     hid_writes := hid_writes st;
     dropped_logged := dropped_logged st;
     queue_full_logged := queue_full_logged st;
     wakeup_requests := wakeup_requests st;
     elapsed_ms := elapsed_ms st + delay_ms |}.

Section Transport.

(** The delivery interface: what [hid_int_ep_write] returns for a message,
    given how many writes were attempted before it. *)
Variable hid_int_ep_write : nat -> usb_hid_msg -> Z.

Variable CONFIG_HID_INTERRUPT_EP_MPS : nat.

(** Lines 55-57: remove the head and clear the failure count. *)
Definition remove_head (st : state) : state :=
  set_failed 0 (set_msgq (k_msgq_get (usb_hid_msgq st)) st).

(** One pass through the body of the [while] loop for the head [msg].
    The boolean tells whether control goes back to the loop test ([true])
    or the handler returns ([false]). *)
Definition loop_body (st : state) (msg : usb_hid_msg) : state * bool :=
  let err := hid_int_ep_write (length (hid_writes st)) msg in
  let st := log_write msg err st in
  if err =? 0 then (remove_head st, true)
  else
    let st := set_failed (usb_hid_failed st + 1) st in
    if usb_hid_failed st <? 3 then
      (set_work (k_work_reschedule (usb_hid_work st) 10) st, false)
    else
      (remove_head (log_dropped st), true).

(** The [while] loop.  [n] bounds the passes; every pass that comes back to
    the loop test has removed one message, so the length of the queue is
    enough. *)
Fixpoint work_loop (n : nat) (st : state) : state :=
  match n with
  | O => st
  | S n' =>
      match k_msgq_peek (usb_hid_msgq st) with
      | None => st
      | Some msg =>
          let (st', again) := loop_body st msg in
          if again then work_loop n' st' else st'
      end
  end.

Definition usb_hid_work_handler (st : state) : state :=
  work_loop (length (usb_hid_msgq st)) st.

(** The work queue takes a scheduled item after its delay, marks it idle and
    calls the handler. *)
Definition workqueue_run (st : state) : state :=
  match usb_hid_work st with
  | WorkIdle => st
  | WorkScheduled d => usb_hid_work_handler (set_work WorkIdle (wait d st))
  end.

(** The work queue left alone for up to [runs] runs of the handler. *)
Fixpoint drain (runs : nat) (st : state) : state :=
  match runs with
  | O => st
  | S r =>
      match usb_hid_work st with
      | WorkIdle => st
      | WorkScheduled _ => drain r (workqueue_run st)
      end
  end.

Definition in_ready_cb (st : state) : state :=
  set_work (k_work_reschedule (usb_hid_work st) 0) st.

(** [struct usb_hid_msg msg = {.len = len}; memcpy(&msg.data, report, len);]
    The initializer zeroes [data], the copy fills its first [len] bytes, and
    [len] is narrowed from [size_t] to [uint8_t].  The callers pass the size
    of a report, which fits the array. *)
Definition make_msg (report : list Z) (len : Z) : usb_hid_msg :=
  {| data := load_bytes (memcpy zero_memory 0 report len) 0
                        CONFIG_HID_INTERRUPT_EP_MPS;
     len := to_uint8 len |}.

(** [zmk_usb_hid_send_report(report, len)]; [status] is what
    [zmk_usb_get_status()] returns and [wakeup] what [usb_wakeup_request()]
    would return. *)
Definition zmk_usb_hid_send_report (status : usb_dc_status_code) (wakeup : Z)
    (st : state) (report : list Z) (len : Z) : Z * state :=
  match status with
  | USB_DC_SUSPEND => (wakeup, log_wakeup st)
  | USB_DC_ERROR | USB_DC_RESET | USB_DC_DISCONNECTED | USB_DC_UNKNOWN =>
      (- ENODEV, st)
  | _ =>
      let (ret, q) := k_msgq_put (usb_hid_msgq st) (make_msg report len) in
      if negb (ret =? 0) then (0, log_queue_full st)
      else (0, set_work (k_work_schedule (usb_hid_work st) 0) (set_msgq q st))
  end.

(** The branch the [switch] takes: [true] for the statuses that reach the
    [default] case, where the report is queued. *)
Definition reaches_default (status : usb_dc_status_code) : bool :=
  match status with
  | USB_DC_SUSPEND => false
  | USB_DC_ERROR | USB_DC_RESET | USB_DC_DISCONNECTED | USB_DC_UNKNOWN => false
  | _ => true
  end.


(** The states the translation unit can be in: from the initial one, any
    sequence of report submissions, runs of the work queue and
    endpoint-ready callbacks. *)
Inductive reachable : state -> Prop :=
| reachable_initial : reachable initial_state
| reachable_send st status wakeup report len :
    reachable st ->
    reachable (snd (zmk_usb_hid_send_report status wakeup st report len))
| reachable_run st :
    reachable st -> reachable (workqueue_run st)
| reachable_in_ready st :
    reachable st -> reachable (in_ready_cb st).

End Transport.

(** What holds of the failure count between any two operations: it is 0, 1
    or 2, it is 0 whenever the queue is empty, and every drop that was logged
    was logged with a count of 3. *)
Definition failed_invariant (st : state) : Prop :=
  0 <= usb_hid_failed st <= 2 /\
  (usb_hid_msgq st = [] -> usb_hid_failed st = 0) /\
  Forall (fun v => v = 3) (dropped_logged st).

(** Interfaces and a queue to run the code against. *)
Definition always_fails : nat -> usb_hid_msg -> Z := fun _ _ => -11.

Definition sample_msg (b : Z) : usb_hid_msg := {| data := [b]; len := 1 |}.

Definition state_with_queue (q : list usb_hid_msg) (w : work_state) : state :=
  set_work w (set_msgq q initial_state).

Definition full_queue : list usb_hid_msg := map sample_msg [1; 2; 3; 4; 5; 6; 7; 8].

End UsbHid.

(** * The rest of the two translation units *)

Definition to_size_t (z : Z) : Z := z mod 4294967296.

(** Zephyr's [MIN(a, b)], [((a) < (b)) ? (a) : (b)], with [a] an [int] and
    [b] a [size_t]: both operands are converted to [size_t] (32 bits on the
    targets) before they are compared, and the result is a [size_t]. *)
Definition MIN_int_size_t (a b : Z) : Z :=
  if to_size_t a <? b then to_size_t a else b.

Module ServiceMore.
Import Service.

(** [split_svc_update_indicators_callback]: the value carried by the
    [zmk_hid_indicators_changed] event it raises, that is [hid_indicators]
    read as an integer of [size] bytes. *)
Definition split_svc_update_indicators_callback (size : nat) (st : state) : Z :=
  load_uint (hid_indicators st) 0 size.

(** The byte image of a payload in [spec_layout], as the sending half has to
    produce it for the field reads of [split_svc_run_behavior] to find the
    values: the integers little-endian, then the name and its NUL. *)
Fixpoint le_bytes (n : nat) (v : Z) : list Z :=
  match n with
  | O => []
  | S k => v mod 256 :: le_bytes k (v / 256)
  end.

Fixpoint bytes_of_string (s : string) : list Z :=
  match s with
  | EmptyString => []
  | String c rest => Z.of_N (N_of_ascii c) :: bytes_of_string rest
  end.

Definition encode_payload (position param1 param2 state : Z) (name : string)
  : list Z :=
  le_bytes 2 position ++ le_bytes 4 param1 ++ le_bytes 4 param2 ++
  [state] ++ bytes_of_string name ++ [0].

(** *** The state mirror: [position_state] and [last_sensor_event] *)

Record mirror := {
  position_state : memory;      (* addresses relative to position_state *)
  last_sensor_event : memory;   (* addresses relative to &last_sensor_event *)
  notified : list (nat * list Z * Z);  (* bt_gatt_notify: attribute index,
                                          the caller's data, its uint16_t len *)
  notify_errors_logged : list Z (* LOG_DBG("Error notifying %d") *)
}.

Section Mirror.

Variable sizeof_position_state : Z.   (* ZMK_SPLIT_POS_STATE_LEN *)
Variable sizeof_last_sensor_event : Z.
(** What [bt_gatt_notify] returns for an attribute index, data and length. *)
Variable bt_gatt_notify : nat -> list Z -> Z -> Z.

Definition log_notify (attr : nat) (data : list Z) (len : Z) (mi : mirror)
  : list (nat * list Z * Z) * list Z :=
  let err := bt_gatt_notify attr data (to_uint16 len) in
  (notified mi ++ [(attr, data, to_uint16 len)],
   if err =? 0 then notify_errors_logged mi
   else notify_errors_logged mi ++ [err]).

(** [send_position_state_impl(state, len)]. *)
Definition send_position_state_impl (mi : mirror) (state : list Z) (len : Z)
  : mirror :=
  let copied := MIN_int_size_t len sizeof_position_state in
  let (n, e) := log_notify 1 state len mi in
  {| position_state := memcpy (position_state mi) 0 state copied;
     last_sensor_event := last_sensor_event mi;
     notified := n;
     notify_errors_logged := e |}.

(** [send_sensor_state_impl(event, len)], with [event] as its bytes. *)
Definition send_sensor_state_impl (mi : mirror) (event : list Z) (len : Z)
  : mirror :=
  let copied := MIN_int_size_t len sizeof_last_sensor_event in
  let (n, e) := log_notify 8 event len mi in
  {| position_state := position_state mi;
     last_sensor_event := memcpy (last_sensor_event mi) 0 event copied;
     notified := n;
     notify_errors_logged := e |}.

End Mirror.

End ServiceMore.

Module UsbHidTrace.
Import UsbHid.

(** The failure count tells how the trace of writes ends: its last
    [usb_hid_failed] entries are failed writes of the message now at the
    head of the queue. *)
Definition recent_failures (st : state) : Prop :=
  exists earlier recent,
    hid_writes st = earlier ++ recent /\
    Z.of_nat (length recent) = usb_hid_failed st /\
    Forall (fun w => snd w <> 0 /\
                     k_msgq_peek (usb_hid_msgq st) = Some (fst w)) recent.

(** States to run the code from: one report queued, and the same after two
    failed writes. *)
Definition one_queued : state :=
  snd (zmk_usb_hid_send_report 8 USB_DC_CONFIGURED 0 initial_state [1] 1).

Definition twice_failed : state :=
  workqueue_run always_fails (workqueue_run always_fails one_queued).

End UsbHidTrace.

Module UsbHidReports.
Import UsbHid.

Definition ENOTSUP : Z := 134.
Definition EINVAL : Z := 22.

Definition HID_GET_REPORT_TYPE_MASK : Z := 0xff00.
Definition HID_GET_REPORT_ID_MASK : Z := 0x00ff.
Definition HID_REPORT_TYPE_INPUT : Z := 0x100.
Definition HID_REPORT_TYPE_OUTPUT : Z := 0x200.

(** <zephyr/usb/class/hid.h> *)
Definition HID_PROTOCOL_BOOT : Z := 0.
Definition HID_PROTOCOL_REPORT : Z := 1.

(** The report objects of <zmk/hid.h> a callback can hand out. *)
Inductive report_ref :=
| BootReport
| KeyboardReport
| ConsumerReport.

Section Reports.

(** Build options and the constants of <zmk/hid.h>, which is not among the
    sources at hand. *)
Variable CONFIG_ZMK_USB_BOOT : bool.
Variable CONFIG_ZMK_HID_INDICATORS : bool.
Variable ZMK_HID_REPORT_ID_KEYBOARD : Z.
Variable ZMK_HID_REPORT_ID_CONSUMER : Z.
Variable ZMK_HID_REPORT_ID_LEDS : Z.
Variable sizeof_report : report_ref -> Z.
Variable sizeof_led_report : Z.
(** The bytes of the report objects at the time of the call. *)
Variable report_bytes : report_ref -> list Z.
Variable CONFIG_HID_INTERRUPT_EP_MPS : nat.

(** [set_proto_cb] and [zmk_usb_hid_set_protocol]: the new value of
    [hid_protocol], a [uint8_t]. *)
Definition zmk_usb_hid_set_protocol (protocol : Z) : Z := to_uint8 protocol.

Definition get_keyboard_report (hid_protocol : Z) : report_ref * Z :=
  if CONFIG_ZMK_USB_BOOT && negb (hid_protocol =? HID_PROTOCOL_REPORT)
  then (BootReport, sizeof_report BootReport)
  else (KeyboardReport, sizeof_report KeyboardReport).

(** [get_report_cb(dev, setup, len, data)]: [out] is what [*data] and [*len]
    hold before the call, the second component what they hold after. *)
Definition get_report_cb (hid_protocol wValue : Z)
    (out : option (report_ref * Z)) : Z * option (report_ref * Z) :=
  if negb (Z.land wValue HID_GET_REPORT_TYPE_MASK =? HID_REPORT_TYPE_INPUT)
  then (- ENOTSUP, out)
  else
    let id := Z.land wValue HID_GET_REPORT_ID_MASK in
    if id =? ZMK_HID_REPORT_ID_KEYBOARD then
      (0, Some (get_keyboard_report hid_protocol))
    else if id =? ZMK_HID_REPORT_ID_CONSUMER then
      (0, Some (ConsumerReport, sizeof_report ConsumerReport))
    else (- EINVAL, out).

(** [set_report_cb(dev, setup, len, data)]: the second component is the
    report handed to [zmk_hid_indicators_process_report], if any. *)
Definition set_report_cb (wValue len : Z) (data : list Z)
  : Z * option (list Z) :=
  if negb (Z.land wValue HID_GET_REPORT_TYPE_MASK =? HID_REPORT_TYPE_OUTPUT)
  then (- ENOTSUP, None)
  else
    let id := Z.land wValue HID_GET_REPORT_ID_MASK in
    if CONFIG_ZMK_HID_INDICATORS && (id =? ZMK_HID_REPORT_ID_LEDS) then
      if negb (to_size_t len =? sizeof_led_report) then (- EINVAL, None)
      else (0, Some data)
    else (- EINVAL, None).

Definition zmk_usb_hid_send_keyboard_report (hid_protocol : Z)
    (status : usb_dc_status_code) (wakeup : Z) (st : state) : Z * state :=
  let (report, len) := get_keyboard_report hid_protocol in
  zmk_usb_hid_send_report CONFIG_HID_INTERRUPT_EP_MPS status wakeup st
    (report_bytes report) len.

Definition zmk_usb_hid_send_consumer_report (hid_protocol : Z)
    (status : usb_dc_status_code) (wakeup : Z) (st : state) : Z * state :=
  if CONFIG_ZMK_USB_BOOT && (hid_protocol =? HID_PROTOCOL_BOOT)
  then (- ENOTSUP, st)
  else
    zmk_usb_hid_send_report CONFIG_HID_INTERRUPT_EP_MPS status wakeup st
      (report_bytes ConsumerReport) (sizeof_report ConsumerReport).

End Reports.

End UsbHidReports.

(** * Properties of the memory primitives *)

Lemma to_uint16_small (z : Z) : 0 <= z < 65536 -> to_uint16 z = z.
Proof. intros H. unfold to_uint16. now apply Z.mod_small. Qed.

Lemma memcpy_inside (m : memory) (dst : Z) (src : list Z) (n a : Z) :
  dst <= a < dst + n ->
  memcpy m dst src n a = nth (Z.to_nat (a - dst)) src 0.
Proof.
  intros [Hlo Hhi]. unfold memcpy.
  apply Z.leb_le in Hlo. apply Z.ltb_lt in Hhi.
  now rewrite Hlo, Hhi.
Qed.

Lemma memcpy_outside (m : memory) (dst : Z) (src : list Z) (n a : Z) :
  a < dst \/ dst + n <= a ->
  memcpy m dst src n a = m a.
Proof.
  intros H. unfold memcpy.
  destruct (dst <=? a) eqn:Hlo; [|reflexivity].
  destruct (a <? dst + n) eqn:Hhi; [|reflexivity].
  apply Z.leb_le in Hlo. apply Z.ltb_lt in Hhi. lia.
Qed.

Lemma load_bytes_ext (m1 m2 : memory) (addr : Z) (n : nat) :
  (forall a, addr <= a < addr + Z.of_nat n -> m1 a = m2 a) ->
  load_bytes m1 addr n = load_bytes m2 addr n.
Proof.
  intros H. unfold load_bytes. apply map_ext_in.
  intros i Hi. apply in_seq in Hi. apply H. lia.
Qed.

Lemma load_bytes_length (m : memory) (addr : Z) (n : nat) :
  length (load_bytes m addr n) = n.
Proof. unfold load_bytes. now rewrite length_map, length_seq. Qed.

Lemma load_bytes_nth (m : memory) (addr : Z) (n i : nat) :
  (i < n)%nat -> nth i (load_bytes m addr n) 0 = m (addr + Z.of_nat i).
Proof.
  intros Hi. unfold load_bytes.
  set (f := fun j : nat => m (addr + Z.of_nat j)).
  rewrite (nth_indep _ 0 (f O)) by now rewrite length_map, length_seq.
  rewrite map_nth, seq_nth by assumption. reflexivity.
Qed.

(** Copying a buffer to [dst] and loading the same range gives the buffer. *)
Lemma load_bytes_memcpy (m : memory) (dst : Z) (src : list Z) :
  load_bytes (memcpy m dst src (Z.of_nat (length src))) dst (length src) = src.
Proof.
  apply (nth_ext _ _ 0 0).
  - apply load_bytes_length.
  - intros i Hi. rewrite load_bytes_length in Hi.
    rewrite load_bytes_nth by assumption.
    rewrite memcpy_inside by lia.
    f_equal. lia.
Qed.

Module ServiceFacts.
Import Service.

Section Callbacks.

Variable L : payload_layout.
Variable engine : behavior_engine.
Variable now : Z.
Hypothesis HL : layout_ok L.

Local Abbreviation run := (split_svc_run_behavior L engine now).

(** An accepted call returns [len], whatever the completion test and the
    behavior engine say. *)
Lemma run_behavior_accepted_returns_len st buf len offset :
  to_uint16 (offset + len) <= sizeof_payload L ->
  fst (run st buf len offset) = len.
Proof.
  intros Hend. unfold split_svc_run_behavior.
  destruct (sizeof_payload L <? to_uint16 (offset + len)) eqn:Hrej.
  - apply Z.ltb_lt in Hrej. lia.
  - destruct (run_condition L _ _); reflexivity.
Qed.

(** The memory after an accepted call is the memory after the copy. *)
Lemma run_behavior_accepted_memory st buf len offset :
  to_uint16 (offset + len) <= sizeof_payload L ->
  behavior_run_payload (snd (run st buf len offset)) =
  memcpy (behavior_run_payload st) (offset * sizeof_payload L) buf len.
Proof.
  intros Hend. unfold split_svc_run_behavior.
  destruct (sizeof_payload L <? to_uint16 (offset + len)) eqn:Hrej.
  - apply Z.ltb_lt in Hrej. lia.
  - destruct (run_condition L _ _); reflexivity.
Qed.

(** A call at [offset = 0] stores the buffer at the start of the object and
    leaves every other byte alone. *)
Lemma run_behavior_offset_zero_roundtrip st buf :
  Z.of_nat (length buf) <= sizeof_payload L ->
  let st' := snd (run st buf (Z.of_nat (length buf)) 0) in
  read_payload st' 0 (length buf) = buf /\
  forall a, Z.of_nat (length buf) <= a ->
            behavior_run_payload st' a = behavior_run_payload st a.
Proof.
  intros Hlen st'. subst st'. unfold read_payload.
  destruct HL as (_ & _ & _ & _ & Hsz).
  rewrite run_behavior_accepted_memory
    by (rewrite to_uint16_small; lia).
  split.
  - replace (0 * sizeof_payload L) with 0 by lia. apply load_bytes_memcpy.
  - intros a Ha. apply memcpy_outside. lia.
Qed.

(** A call at any [offset >= 1] leaves the whole payload object as it was:
    the copy lands at or beyond its end. *)
Lemma run_behavior_offset_nonzero_object_untouched st buf len offset a :
  1 <= offset -> 0 <= len ->
  0 <= a < sizeof_payload L ->
  behavior_run_payload (snd (run st buf len offset)) a =
  behavior_run_payload st a.
Proof.
  intros Hoff Hlen Ha. unfold split_svc_run_behavior.
  destruct (sizeof_payload L <? to_uint16 (offset + len)); [reflexivity|].
  assert (Hm : memcpy (behavior_run_payload st) (offset * sizeof_payload L)
                      buf len a = behavior_run_payload st a)
    by (apply memcpy_outside; nia).
  destruct (run_condition L _ _); exact Hm.
Qed.

(** Without wrap-around of the 16-bit sum the bound check is exact. *)
Lemma run_behavior_rejects_beyond_capacity st buf len offset :
  0 <= offset -> 0 <= len -> offset + len < 65536 ->
  sizeof_payload L < offset + len ->
  run st buf len offset = (BT_GATT_ERR BT_ATT_ERR_INVALID_OFFSET, st).
Proof.
  intros Ho Hl Hw Hbig. unfold split_svc_run_behavior.
  rewrite to_uint16_small by lia.
  apply Z.ltb_lt in Hbig. now rewrite Hbig.
Qed.

End Callbacks.

(** The indicator write rejects every range that ends beyond the object and
    leaves the state as it was. *)
Lemma update_indicators_rejects_beyond_capacity size st buf len offset :
  size < offset + len ->
  split_svc_update_indicators size st buf len offset =
  (BT_GATT_ERR BT_ATT_ERR_INVALID_OFFSET, st).
Proof.
  intros Hbig. unfold split_svc_update_indicators.
  apply Z.ltb_lt in Hbig. now rewrite Hbig.
Qed.

Lemma invalid_offset_is_not_unlikely :
  BT_GATT_ERR BT_ATT_ERR_INVALID_OFFSET <> BT_GATT_ERR BT_ATT_ERR_UNLIKELY.
Proof. discriminate. Qed.

Section Completion.

Variable L : payload_layout.
Variable engine : behavior_engine.
Variable now : Z.

Local Abbreviation run := (split_svc_run_behavior L engine now).

Lemma run_behavior_dispatched st buf len offset :
  0 <= offset -> 0 <= len -> offset + len <= sizeof_payload L ->
  sizeof_payload L < 65536 ->
  let m := memcpy (behavior_run_payload st) (offset * sizeof_payload L) buf len in
  let st' := snd (run st buf len offset) in
  (run_condition L m (offset + len) = true ->
     exists d, dispatched st' = dispatched st ++ [d] /\
       errors_logged st' =
         if dispatch_result engine d =? 0 then errors_logged st
         else errors_logged st ++ [dispatch_result engine d]) /\
  (run_condition L m (offset + len) = false ->
     dispatched st' = dispatched st /\ errors_logged st' = errors_logged st).
Proof.
  intros Ho Hl Hcap Hmax m st'. subst st' m.
  unfold split_svc_run_behavior.
  rewrite to_uint16_small by lia.
  destruct (sizeof_payload L <? offset + len) eqn:Hrej;
    [apply Z.ltb_lt in Hrej; lia|].
  destruct (run_condition L _ _) eqn:Hrun; split; try discriminate; intros _.
  - destruct (0 <? load_uint _ (state_offset L) 1);
      eexists; (split; [reflexivity|]); reflexivity.
  - now split.
Qed.

(** C8.  When a write completes a message and the call into the behavior
    engine returns an error (the behavior was not found, or its press or
    release entry point failed), the error is logged and goes no further:
    the write callback still returns [len], the accepted length. *)
Theorem run_behavior_dispatch_failure_swallowed st buf len offset d :
  layout_ok L ->
  0 <= offset -> 0 <= len -> offset + len <= sizeof_payload L ->
  let r := run st buf len offset in
  dispatched (snd r) = dispatched st ++ [d] ->
  dispatch_result engine d <> 0 ->
  fst r = len /\
  errors_logged (snd r) = errors_logged st ++ [dispatch_result engine d].
Proof.
  intros HL Ho Hl Hcap r Hd Herr.
  destruct HL as (Hd0 & Hbd & Hn & Hsz & Hmax).
  split.
  - apply run_behavior_accepted_returns_len. rewrite to_uint16_small; lia.
  - pose proof (run_behavior_dispatched st buf len offset Ho Hl Hcap Hmax)
      as [Hyes Hno].
    cbv zeta in Hyes, Hno. fold r in Hyes, Hno.
    destruct (run_condition L _ (offset + len)) eqn:Hrun.
    + destruct (Hyes eq_refl) as (d' & Hd' & Hlog).
      rewrite Hd in Hd'. apply app_inv_head in Hd'.
      injection Hd' as <-.
      rewrite Hlog. apply Z.eqb_neq in Herr. now rewrite Herr.
    + destruct (Hno eq_refl) as (Hsame & _). rewrite Hsame in Hd.
      apply (f_equal (@length _)) in Hd. rewrite length_app in Hd.
      simpl in Hd. lia.
Qed.

End Completion.

Lemma run_behavior_dispatch_failure_swallowed_witness :
  let L := spec_layout 9 in
  let msg := scenario_first_chunk ++ scenario_second_chunk in
  let d :=
    Pressed {| behavior_dev := "foo"; param1 := 10; param2 := 0 |}
            {| position := 5; timestamp := 0 |} in
  let r := split_svc_run_behavior L failing_engine 0 initial_state msg 15 0 in
  fst r = 15 /\
  errors_logged (snd r) =
    errors_logged initial_state ++ [dispatch_result failing_engine d].
Proof.
  apply (run_behavior_dispatch_failure_swallowed (spec_layout 9) failing_engine
           0 initial_state (scenario_first_chunk ++ scenario_second_chunk) 15 0).
  - unfold layout_ok. simpl. lia.
  - lia.
  - lia.
  - simpl. lia.
  - reflexivity.
  - simpl. lia.
Defined.

(** C1.  A write of one byte [0xAA] at offset 1 into the zeroed payload
    object (here with an identifier field of 9 bytes, 20 bytes in all) is
    accepted, yet reading byte 1 of the object back gives [0]:
    the destination [payload + offset] is computed in units of the struct,
    so the byte lands one whole struct past the start of the object. *)
Theorem run_behavior_write_at_offset_lost engine now :
  let L := spec_layout 9 in
  let r := split_svc_run_behavior L engine now initial_state [170] 1 1 in
  1 + 1 <= sizeof_payload L /\
  fst r = 1 /\
  read_payload (snd r) 1 1 = [0] /\
  read_payload (snd r) (1 * sizeof_payload L) 1 = [170].
Proof. vm_compute. repeat split; discriminate. Qed.

(** C2.  Three runs on the zeroed payload object where the callback
    dispatches although the completion conditions, read on the bytes it was
    sent, do not hold.
    - One byte ['x'] at offset 11: the range ends past the header, its last
      byte is not NUL, and yet a call is made.  The byte tested is byte 11
      of the object, which the copy never reached and which still reads 0.
    - The scenario's message in three writes, bytes 0-10, 11-12 and 13-14:
      nothing after the first, a call after the second, whose last byte is
      ['o'], and another after the third: two calls for one message, both
      with the empty name.
    - Thirteen bytes at offset 65535: the range ends at 65548, nowhere in
      the identifier field, but the 16-bit end is 12, the write is accepted
      and a call is made. *)
Theorem run_behavior_dispatches_without_terminator engine now :
  let L := spec_layout 9 in
  let run := split_svc_run_behavior L engine now in
  let none := {| behavior_dev := ""; param1 := 0; param2 := 0 |} in
  let unnamed := {| behavior_dev := ""; param1 := 10; param2 := 0 |} in
  let lone := run initial_state [120] 1 11 in
  let first := run initial_state scenario_header 11 0 in
  let second := run (snd first) scenario_name_start 2 11 in
  let third := run (snd second) scenario_name_end 2 13 in
  let wrapped :=
    run initial_state [1; 2; 3; 4; 5; 6; 7; 8; 9; 10; 11; 12; 13] 13 65535 in
  (fst lone = 1 /\
   dispatched (snd lone) =
     [Released none {| position := 0; timestamp := now |}] /\
   read_payload (snd lone) 11 1 = [0]) /\
  (fst first = 11 /\ dispatched (snd first) = [] /\
   fst second = 2 /\
   dispatched (snd second) =
     [Pressed unnamed {| position := 5; timestamp := now |}] /\
   fst third = 2 /\
   dispatched (snd third) =
     [Pressed unnamed {| position := 5; timestamp := now |};
      Pressed unnamed {| position := 5; timestamp := now |}]) /\
  (fst wrapped = 13 /\
   dispatched (snd wrapped) =
     [Released none {| position := 0; timestamp := now |}]).
Proof. vm_compute. repeat split. Qed.

(** C3.  The scenario of the spec on the zeroed payload object: bytes 0-9 in
    a first call, bytes 10-14 in a second.  The first call dispatches
    nothing.  The second call does dispatch once, but what it dispatches is
    a release of the behavior with the empty name: its five bytes never
    reach bytes 10-14 of the object, which still read as zero. *)
Theorem run_behavior_two_chunk_scenario engine now :
  let L := spec_layout 9 in
  let r1 :=
    split_svc_run_behavior L engine now initial_state scenario_first_chunk 10 0 in
  let r2 :=
    split_svc_run_behavior L engine now (snd r1) scenario_second_chunk 5 10 in
  fst r1 = 10 /\ dispatched (snd r1) = [] /\
  fst r2 = 5 /\
  dispatched (snd r2) =
    [Released {| behavior_dev := ""; param1 := 10; param2 := 0 |}
              {| position := 5; timestamp := now |}] /\
  read_payload (snd r2) 10 5 = [0; 0; 0; 0; 0].
Proof. vm_compute. repeat split. Qed.

(** C6.  A write of one byte at offset 65535 ends at 65536, far beyond the
    payload object, but the end is kept in a [uint16_t] and wraps to 0: the
    bound check passes and the callback returns [len] instead of the
    invalid-offset error. *)
Theorem run_behavior_wrapped_end_accepted engine now :
  let L := spec_layout 9 in
  let r := split_svc_run_behavior L engine now initial_state [170] 1 65535 in
  sizeof_payload L < 65535 + 1 /\
  to_uint16 (65535 + 1) = 0 /\
  fst r = 1 /\
  fst r <> BT_GATT_ERR BT_ATT_ERR_INVALID_OFFSET.
Proof. vm_compute. repeat split; discriminate. Qed.

End ServiceFacts.

Module UsbHidFacts.
Import UsbHid.

Section Transport.

Variable ep : nat -> usb_hid_msg -> Z.
Variable mps : nat.

Local Abbreviation handler := (usb_hid_work_handler ep).

(** *** The loop body, case by case *)

Lemma loop_body_success st msg :
  ep (length (hid_writes st)) msg = 0 ->
  loop_body ep st msg = (remove_head (log_write msg 0 st), true).
Proof.
  intros Herr. unfold loop_body. rewrite Herr. reflexivity.
Qed.

Lemma loop_body_retry st msg :
  ep (length (hid_writes st)) msg <> 0 ->
  usb_hid_failed st + 1 < 3 ->
  loop_body ep st msg =
    (set_work (WorkScheduled 10)
       (set_failed (usb_hid_failed st + 1)
          (log_write msg (ep (length (hid_writes st)) msg) st)),
     false).
Proof.
  intros Herr Hlt. unfold loop_body.
  apply Z.eqb_neq in Herr. rewrite Herr. simpl.
  apply Z.ltb_lt in Hlt. rewrite Hlt. reflexivity.
Qed.

Lemma loop_body_drop st msg :
  ep (length (hid_writes st)) msg <> 0 ->
  3 <= usb_hid_failed st + 1 ->
  loop_body ep st msg =
    (remove_head
       (log_dropped
          (set_failed (usb_hid_failed st + 1)
             (log_write msg (ep (length (hid_writes st)) msg) st))),
     true).
Proof.
  intros Herr Hge. unfold loop_body.
  apply Z.eqb_neq in Herr. rewrite Herr. simpl.
  apply Z.ltb_ge in Hge. rewrite Hge. reflexivity.
Qed.

(** A pass that goes back to the loop test has removed the head. *)
Lemma loop_body_again st msg st' :
  loop_body ep st msg = (st', true) ->
  usb_hid_msgq st' = tl (usb_hid_msgq st) /\ usb_hid_failed st' = 0.
Proof.
  unfold loop_body.
  destruct (_ =? 0).
  - intros H. injection H as <-. now split.
  - simpl. destruct (_ <? 3); intros H; [discriminate|].
    injection H as <-. now split.
Qed.

(** A pass that returns has kept the queue and scheduled a retry. *)
Lemma loop_body_return st msg st' :
  loop_body ep st msg = (st', false) ->
  usb_hid_msgq st' = usb_hid_msgq st /\
  usb_hid_failed st' = usb_hid_failed st + 1 /\
  usb_hid_failed st' < 3 /\
  usb_hid_work st' = WorkScheduled 10 /\
  ep (length (hid_writes st)) msg <> 0.
Proof.
  unfold loop_body.
  destruct (_ =? 0) eqn:Herr; [discriminate|].
  apply Z.eqb_neq in Herr. simpl.
  destruct (_ <? 3) eqn:Hlt; intros H; [|discriminate].
  injection H as <-. apply Z.ltb_lt in Hlt. simpl.
  repeat split; assumption.
Qed.

(** *** The handler *)

Lemma work_loop_empty n st :
  usb_hid_msgq st = [] -> work_loop ep n st = st.
Proof.
  intros Hq. destruct n; simpl; [reflexivity|]. now rewrite Hq.
Qed.

(** The bound on the passes is never what stops the loop: any bound from
    the length of the queue upwards gives the same result. *)
Lemma work_loop_enough n st :
  (length (usb_hid_msgq st) <= n)%nat ->
  work_loop ep n st = handler st.
Proof.
  unfold usb_hid_work_handler.
  revert st. induction n as [|n IH]; intros st Hn.
  - destruct (usb_hid_msgq st); simpl in *; [reflexivity|lia].
  - destruct (usb_hid_msgq st) as [|msg rest] eqn:Hq.
    + simpl. now rewrite Hq.
    + simpl. rewrite Hq. simpl.
      destruct (loop_body ep st msg) as [st' again] eqn:Hbody.
      destruct again; [|reflexivity].
      apply loop_body_again in Hbody. destruct Hbody as [Hq' _].
      rewrite Hq in Hq'. simpl in Hq'.
      rewrite IH by (rewrite Hq'; simpl in Hn; lia).
      now rewrite Hq'.
Qed.

Lemma handler_empty st :
  usb_hid_msgq st = [] -> handler st = st.
Proof. intros Hq. unfold usb_hid_work_handler. now apply work_loop_empty. Qed.

Lemma handler_step st msg rest :
  usb_hid_msgq st = msg :: rest ->
  handler st =
    let (st', again) := loop_body ep st msg in
    if again then handler st' else st'.
Proof.
  intros Hq. unfold usb_hid_work_handler at 1. rewrite Hq. simpl.
  rewrite Hq. simpl.
  destruct (loop_body ep st msg) as [st' again] eqn:Hbody.
  destruct again; [|reflexivity].
  apply loop_body_again in Hbody. destruct Hbody as [Hq' _].
  rewrite Hq in Hq'. simpl in Hq'.
  apply work_loop_enough. rewrite Hq'. lia.
Qed.

Lemma handler_success st msg rest :
  usb_hid_msgq st = msg :: rest ->
  ep (length (hid_writes st)) msg = 0 ->
  handler st = handler (remove_head (log_write msg 0 st)).
Proof.
  intros Hq Herr. rewrite (handler_step st msg rest Hq).
  now rewrite loop_body_success.
Qed.

Lemma handler_retry st msg rest :
  usb_hid_msgq st = msg :: rest ->
  ep (length (hid_writes st)) msg <> 0 ->
  usb_hid_failed st + 1 < 3 ->
  handler st =
    set_work (WorkScheduled 10)
      (set_failed (usb_hid_failed st + 1)
         (log_write msg (ep (length (hid_writes st)) msg) st)).
Proof.
  intros Hq Herr Hlt. rewrite (handler_step st msg rest Hq).
  now rewrite loop_body_retry.
Qed.

Lemma handler_drop st msg rest :
  usb_hid_msgq st = msg :: rest ->
  ep (length (hid_writes st)) msg <> 0 ->
  3 <= usb_hid_failed st + 1 ->
  handler st =
    handler
      (remove_head
         (log_dropped
            (set_failed (usb_hid_failed st + 1)
               (log_write msg (ep (length (hid_writes st)) msg) st)))).
Proof.
  intros Hq Herr Hge. rewrite (handler_step st msg rest Hq).
  now rewrite loop_body_drop.
Qed.

(** *** An interface that fails every attempt *)

(** Run [tac] on the state the handler is applied to in the goal. *)
Ltac on_handler tac :=
  match goal with
  | |- context [usb_hid_work_handler _ ?s] => tac s
  end.

Lemma drain_idle runs st :
  usb_hid_work st = WorkIdle -> drain ep runs st = st.
Proof. intros Hw. destruct runs; simpl; [reflexivity|]. now rewrite Hw. Qed.

Lemma drain_scheduled runs st d :
  usb_hid_work st = WorkScheduled d ->
  drain ep (S runs) st = drain ep runs (handler (set_work WorkIdle (wait d st))).
Proof. intros Hw. simpl. unfold workqueue_run. now rewrite Hw. Qed.

(** The scheduled retry comes due: the work queue runs the handler again. *)
Ltac next_run :=
  match goal with
  | |- context [drain _ (S ?r) ?s] =>
      rewrite (drain_scheduled r s 10 eq_refl)
  end.

(** Starting a handler run on a fresh head with an interface that always
    fails: every message is attempted three times, in queue order, with two
    waits of 10 ms each, and is then dropped. *)
Lemma drain_always_failing_from_handler :
  (forall n m, ep n m <> 0) ->
  forall q st runs,
    usb_hid_msgq st = q ->
    usb_hid_failed st = 0 ->
    usb_hid_work st = WorkIdle ->
    (2 * length q <= runs)%nat ->
    let st' := drain ep runs (handler st) in
    usb_hid_msgq st' = [] /\
    usb_hid_failed st' = 0 /\
    usb_hid_work st' = WorkIdle /\
    map fst (hid_writes st') =
      map fst (hid_writes st) ++ flat_map (fun m => [m; m; m]) q /\
    dropped_logged st' = dropped_logged st ++ repeat 3 (length q) /\
    elapsed_ms st' = elapsed_ms st + 20 * Z.of_nat (length q).
Proof.
  intros Hfail q. induction q as [|msg rest IH]; intros st runs Hq Hf Hw Hruns.
  - cbv zeta. rewrite (handler_empty _ Hq), (drain_idle _ _ Hw).
    simpl. rewrite !app_nil_r. repeat split; try assumption. lia.
  - cbv zeta.
    destruct runs as [|[|runs]]; simpl in Hruns; try lia.
    destruct st as [q0 f w hw dl qf wk el]. simpl in Hq, Hf, Hw. subst q0 f w.
    (* first attempt *)
    on_handler ltac:(fun s =>
      rewrite (handler_retry s msg rest eq_refl) by (simpl; auto; lia)).
    next_run.
    (* second attempt, 10 ms later *)
    on_handler ltac:(fun s =>
      rewrite (handler_retry s msg rest eq_refl) by (simpl; auto; lia)).
    next_run.
    (* third attempt, 10 ms later, then the drop *)
    on_handler ltac:(fun s =>
      rewrite (handler_drop s msg rest eq_refl) by (simpl; auto; lia)).
    match goal with
    | |- context [drain ep runs (usb_hid_work_handler ep ?s)] =>
        specialize (IH s runs eq_refl eq_refl eq_refl ltac:(lia));
        cbv zeta in IH; destruct IH as (H1 & H2 & H3 & H4 & H5 & H6)
    end.
    repeat split; try assumption.
    + rewrite H4. simpl. rewrite !map_app. simpl.
      rewrite <- !app_assoc. reflexivity.
    + rewrite H5. simpl. rewrite <- app_assoc. reflexivity.
    + rewrite H6. simpl elapsed_ms. simpl length. lia.
Qed.

(** C4.  The drain worker, on the head [msg] of the queue.
    - A successful write removes the head, clears the failure count and
      goes on with the remaining messages.
    - A failed write increments the count; while the count is below 3 the
      handler reschedules itself with a delay of 10 ms and returns, the
      head still in the queue.
    - A failed write that brings the count to 3 logs the drop, removes the
      head, clears the count and goes on with the remaining messages.
    - With an interface that fails every attempt, letting the work queue
      run gives exactly three attempts per message, in queue order, and
      ends with an empty queue and a failure count of 0. *)
Theorem work_handler_retry_then_drop st msg rest :
  usb_hid_msgq st = msg :: rest ->
  let err := ep (length (hid_writes st)) msg in
  let attempted := log_write msg err st in
  (err = 0 ->
     handler st = handler (remove_head attempted) /\
     usb_hid_msgq (remove_head attempted) = rest /\
     usb_hid_failed (remove_head attempted) = 0) /\
  (err <> 0 -> usb_hid_failed st + 1 < 3 ->
     handler st =
       set_work (WorkScheduled 10)
         (set_failed (usb_hid_failed st + 1) attempted) /\
     usb_hid_msgq (handler st) = msg :: rest) /\
  (err <> 0 -> usb_hid_failed st + 1 = 3 ->
     let dropped := remove_head (log_dropped (set_failed 3 attempted)) in
     handler st = handler dropped /\
     usb_hid_msgq dropped = rest /\
     usb_hid_failed dropped = 0 /\
     dropped_logged dropped = dropped_logged st ++ [3]) /\
  ((forall n m, ep n m <> 0) ->
   usb_hid_failed st = 0 ->
   forall d runs,
     usb_hid_work st = WorkScheduled d ->
     (2 * length (msg :: rest) < runs)%nat ->
     let st' := drain ep runs st in
     map fst (hid_writes st') =
       map fst (hid_writes st) ++
       flat_map (fun m => [m; m; m]) (msg :: rest) /\
     usb_hid_msgq st' = [] /\
     usb_hid_failed st' = 0 /\
     usb_hid_work st' = WorkIdle /\
     dropped_logged st' =
       dropped_logged st ++ repeat 3 (length (msg :: rest)) /\
     elapsed_ms st' =
       elapsed_ms st + d + 20 * Z.of_nat (length (msg :: rest))).
Proof.
  intros Hq err attempted. subst err attempted.
  split; [|split; [|split]].
  - intros Herr. rewrite Herr. split; [|split].
    + now apply (handler_success st msg rest).
    + simpl. now rewrite Hq.
    + reflexivity.
  - intros Herr Hlt.
    rewrite (handler_retry st msg rest Hq Herr Hlt). now split.
  - intros Herr H3. cbv zeta. rewrite <- H3.
    split; [|split; [|split]].
    + apply (handler_drop st msg rest Hq Herr). lia.
    + simpl. now rewrite Hq.
    + reflexivity.
    + reflexivity.
  - intros Hfail Hf d runs Hw Hruns.
    destruct runs as [|runs]; [simpl in Hruns; lia|].
    cbv zeta. rewrite (drain_scheduled runs st d Hw).
    destruct (drain_always_failing_from_handler Hfail (msg :: rest)
                (set_work WorkIdle (wait d st)) runs)
      as (H1 & H2 & H3 & H4 & H5 & H6);
      try assumption; try reflexivity; [simpl in *; lia|].
    repeat split; assumption.
Qed.

(** *** An interface that succeeds every attempt *)


(** *** The sender *)

Lemma send_report_default status wakeup st report len :
  reaches_default status = true ->
  zmk_usb_hid_send_report mps status wakeup st report len =
    let (ret, q) := k_msgq_put (usb_hid_msgq st) (make_msg mps report len) in
    if negb (ret =? 0) then (0, log_queue_full st)
    else (0, set_work (k_work_schedule (usb_hid_work st) 0) (set_msgq q st)).
Proof. destruct status; intros H; try discriminate H; reflexivity. Qed.

Lemma send_report_queued status wakeup st report len :
  reaches_default status = true ->
  (length (usb_hid_msgq st) < 8)%nat ->
  zmk_usb_hid_send_report mps status wakeup st report len =
    (0, set_work (k_work_schedule (usb_hid_work st) 0)
          (set_msgq (usb_hid_msgq st ++ [make_msg mps report len]) st)).
Proof.
  intros Hs Hlen. rewrite send_report_default by assumption.
  unfold k_msgq_put, usb_hid_msgq_max_msgs.
  apply Nat.ltb_lt in Hlen. now rewrite Hlen.
Qed.

Lemma send_report_full status wakeup st report len :
  reaches_default status = true ->
  length (usb_hid_msgq st) = 8%nat ->
  zmk_usb_hid_send_report mps status wakeup st report len =
    (0, log_queue_full st).
Proof.
  intros Hs Hlen. rewrite send_report_default by assumption.
  unfold k_msgq_put, usb_hid_msgq_max_msgs.
  rewrite Hlen. reflexivity.
Qed.

(** Whatever the status, a call either leaves the queue alone or appends
    its message at the tail. *)
Lemma send_report_appends status wakeup st report len :
  let q' :=
    usb_hid_msgq (snd (zmk_usb_hid_send_report mps status wakeup st report len)) in
  q' = usb_hid_msgq st \/
  (q' = usb_hid_msgq st ++ [make_msg mps report len] /\
   reaches_default status = true /\
   (length (usb_hid_msgq st) < 8)%nat).
Proof.
  cbv zeta.
  destruct (reaches_default status) eqn:Hs.
  - destruct (Nat.ltb_spec (length (usb_hid_msgq st)) 8) as [Hlt|Hge].
    + right. rewrite send_report_queued by assumption. now repeat split.
    + left. rewrite send_report_default by assumption.
      unfold k_msgq_put, usb_hid_msgq_max_msgs.
      apply Nat.ltb_ge in Hge. now rewrite Hge.
  - left. destruct status; try discriminate Hs; reflexivity.
Qed.



(** The handler only ever takes messages off the head of the queue: what it
    leaves is a suffix of what it found. *)
Lemma work_loop_suffix n :
  forall st, exists k,
    usb_hid_msgq (work_loop ep n st) = skipn k (usb_hid_msgq st).
Proof.
  induction n as [|n IH]; intros st.
  - exists O. reflexivity.
  - simpl. destruct (usb_hid_msgq st) as [|msg rest] eqn:Hq; simpl.
    + exists O. now rewrite Hq.
    + destruct (loop_body ep st msg) as [st' again] eqn:Hbody.
      destruct again.
      * apply loop_body_again in Hbody. destruct Hbody as [Hq' _].
        rewrite Hq in Hq'. simpl in Hq'.
        destruct (IH st') as [k Hk]. exists (S k).
        rewrite Hk, Hq'. reflexivity.
      * apply loop_body_return in Hbody. destruct Hbody as [Hq' _].
        exists O. now rewrite Hq', Hq.
Qed.


(** *** The failure count *)

Lemma loop_body_invariant st msg rest :
  usb_hid_msgq st = msg :: rest ->
  failed_invariant st ->
  failed_invariant (fst (loop_body ep st msg)).
Proof.
  intros Hq (Hrange & _ & Hlog).
  destruct (Z.eq_dec (ep (length (hid_writes st)) msg) 0) as [Herr|Herr].
  - rewrite loop_body_success by assumption.
    repeat split; simpl; try lia; assumption.
  - destruct (Z_lt_ge_dec (usb_hid_failed st + 1) 3) as [Hlt|Hge].
    + rewrite loop_body_retry by assumption.
      repeat split; simpl; try lia; try assumption.
      rewrite Hq. discriminate.
    + rewrite loop_body_drop by (assumption || lia).
      repeat split; simpl; try lia.
      apply Forall_app. split; [assumption|].
      constructor; [lia|constructor].
Qed.

Lemma work_loop_invariant n :
  forall st, failed_invariant st -> failed_invariant (work_loop ep n st).
Proof.
  induction n as [|n IH]; intros st Hinv; simpl; [assumption|].
  destruct (usb_hid_msgq st) as [|msg rest] eqn:Hq; simpl; [assumption|].
  pose proof (loop_body_invariant st msg rest Hq Hinv) as Hbody.
  destruct (loop_body ep st msg) as [st' again]. simpl in Hbody.
  destruct again; [now apply IH|assumption].
Qed.

Lemma reachable_invariant st :
  reachable ep mps st -> failed_invariant st.
Proof.
  induction 1 as [|st status wakeup report len _ IH|st _ IH|st _ IH].
  - repeat split; simpl; try lia. constructor.
  - destruct IH as (Hrange & Hempty & Hlog).
    pose proof (send_report_appends status wakeup st report len) as Hq.
    cbv zeta in Hq.
    assert (Hsame :
      usb_hid_failed
        (snd (zmk_usb_hid_send_report mps status wakeup st report len)) =
        usb_hid_failed st /\
      dropped_logged
        (snd (zmk_usb_hid_send_report mps status wakeup st report len)) =
        dropped_logged st).
    { unfold zmk_usb_hid_send_report.
      destruct status; simpl; try (now split);
        destruct (k_msgq_put _ _) as [ret q];
        destruct (negb (ret =? 0)); now split. }
    destruct Hsame as [Hf Hd]. unfold failed_invariant.
    rewrite Hf, Hd. repeat split; try lia; try assumption.
    intros Hnil. destruct Hq as [Hq|(Hq & _)]; rewrite Hq in Hnil.
    + now apply Hempty.
    + now destruct (usb_hid_msgq st).
  - unfold workqueue_run. destruct (usb_hid_work st); [assumption|].
    apply work_loop_invariant. exact IH.
  - exact IH.
Qed.


(** C5.  With the queue at its capacity of 8 and a status that reaches the
    [default] case, the sender does not block and queues nothing: the queue,
    the failure count and the work item are as before.  [k_msgq_put]
    rejects the message with [-ENOMSG]; the sender logs that and returns 0,
    the same value it returns after queuing a report. *)
Theorem send_report_full_queue_returns_zero status wakeup st report len :
  reaches_default status = true ->
  length (usb_hid_msgq st) = usb_hid_msgq_max_msgs ->
  let r := zmk_usb_hid_send_report mps status wakeup st report len in
  k_msgq_put (usb_hid_msgq st) (make_msg mps report len) =
    (- ENOMSG, usb_hid_msgq st) /\
  fst r = 0 /\
  usb_hid_msgq (snd r) = usb_hid_msgq st /\
  usb_hid_work (snd r) = usb_hid_work st /\
  usb_hid_failed (snd r) = usb_hid_failed st /\
  queue_full_logged (snd r) = S (queue_full_logged st).
Proof.
  intros Hs Hfull r. subst r.
  rewrite send_report_full by assumption.
  split; [|now repeat split].
  unfold k_msgq_put. rewrite Hfull. reflexivity.
Qed.

(** C7.  The sender looks at the status first.
    - Suspended: it requests a wake-up, returns what the request returned,
      and queues nothing.
    - Error, reset, disconnected or unknown: it returns [-ENODEV] and
      changes nothing.
    - The queue changes only for the other statuses, and then by the
      report's message being appended; with room in the queue those
      statuses do queue the report and return 0. *)
Theorem send_report_checks_status status wakeup st report len :
  let r := zmk_usb_hid_send_report mps status wakeup st report len in
  (status = USB_DC_SUSPEND ->
     r = (wakeup, log_wakeup st) /\
     wakeup_requests (snd r) = S (wakeup_requests st) /\
     usb_hid_msgq (snd r) = usb_hid_msgq st) /\
  (status = USB_DC_DISCONNECTED \/ status = USB_DC_ERROR \/
   status = USB_DC_RESET \/ status = USB_DC_UNKNOWN ->
     r = (- ENODEV, st)) /\
  (usb_hid_msgq (snd r) <> usb_hid_msgq st ->
     reaches_default status = true /\
     usb_hid_msgq (snd r) = usb_hid_msgq st ++ [make_msg mps report len]) /\
  (reaches_default status = true ->
   (length (usb_hid_msgq st) < usb_hid_msgq_max_msgs)%nat ->
     fst r = 0 /\
     usb_hid_msgq (snd r) = usb_hid_msgq st ++ [make_msg mps report len] /\
     wakeup_requests (snd r) = wakeup_requests st).
Proof.
  intros r. subst r. split; [|split; [|split]].
  - intros ->. now repeat split.
  - intros [-> | [-> | [-> | ->]]]; reflexivity.
  - intros Hne.
    destruct (send_report_appends status wakeup st report len)
      as [Hq|(Hq & Hs & _)]; [contradiction|now split].
  - intros Hs Hlen. rewrite send_report_queued by assumption.
    now repeat split.
Qed.

End Transport.

(** *** The theorems at concrete inputs *)

Lemma work_handler_retry_then_drop_witness :
  let st := state_with_queue [sample_msg 1; sample_msg 2] (WorkScheduled 0) in
  let st' := drain always_fails 5 st in
  map fst (hid_writes st') =
    map fst (hid_writes st) ++
    flat_map (fun m => [m; m; m]) [sample_msg 1; sample_msg 2] /\
  usb_hid_msgq st' = [] /\
  usb_hid_failed st' = 0 /\
  usb_hid_work st' = WorkIdle /\
  dropped_logged st' = dropped_logged st ++ repeat 3 2 /\
  elapsed_ms st' = elapsed_ms st + 0 + 20 * Z.of_nat 2.
Proof.
  destruct (work_handler_retry_then_drop always_fails
              (state_with_queue [sample_msg 1; sample_msg 2] (WorkScheduled 0))
              (sample_msg 1) [sample_msg 2] eq_refl) as (_ & _ & _ & H).
  apply (H ltac:(discriminate) eq_refl 0 5%nat eq_refl).
  simpl. lia.
Defined.



Lemma send_report_full_queue_returns_zero_witness :
  let st := state_with_queue full_queue WorkIdle in
  let r := zmk_usb_hid_send_report 8 USB_DC_CONFIGURED 0 st [1; 2] 2 in
  k_msgq_put (usb_hid_msgq st) (make_msg 8 [1; 2] 2) =
    (- ENOMSG, usb_hid_msgq st) /\
  fst r = 0 /\
  usb_hid_msgq (snd r) = usb_hid_msgq st /\
  usb_hid_work (snd r) = usb_hid_work st /\
  usb_hid_failed (snd r) = usb_hid_failed st /\
  queue_full_logged (snd r) = S (queue_full_logged st).
Proof.
  apply (send_report_full_queue_returns_zero 8 USB_DC_CONFIGURED 0
           (state_with_queue full_queue WorkIdle) [1; 2] 2).
  - reflexivity.
  - reflexivity.
Defined.

(** C5, as the spec states it, at a concrete input: the queue holds 8
    messages, the status is [USB_DC_CONFIGURED], and the caller does not get
    an error result. *)
Lemma send_report_full_queue_no_error :
  let st := state_with_queue full_queue WorkIdle in
  let r := zmk_usb_hid_send_report 8 USB_DC_CONFIGURED 0 st [1; 2] 2 in
  length (usb_hid_msgq st) = usb_hid_msgq_max_msgs /\ ~ fst r <> 0.
Proof.
  split; [reflexivity|]. intros H. apply H. reflexivity.
Qed.

Lemma send_report_checks_status_witness :
  zmk_usb_hid_send_report 8 USB_DC_SUSPEND 7 initial_state [1] 1 =
    (7, log_wakeup initial_state) /\
  zmk_usb_hid_send_report 8 USB_DC_DISCONNECTED 7 initial_state [1] 1 =
    (- ENODEV, initial_state).
Proof.
  split.
  - destruct (send_report_checks_status 8 USB_DC_SUSPEND 7 initial_state [1] 1)
      as (H & _).
    destruct (H eq_refl) as (H1 & _). exact H1.
  - destruct (send_report_checks_status 8 USB_DC_DISCONNECTED 7 initial_state
                [1] 1) as (_ & H & _).
    apply H. left. reflexivity.
Defined.

End UsbHidFacts.

(** * Further properties of the report queue *)

Module UsbHidMore.
Import UsbHid UsbHidFacts UsbHidTrace.

Section Transport.

Variable ep : nat -> usb_hid_msg -> Z.
Variable mps : nat.

Local Abbreviation handler := (usb_hid_work_handler ep).
Local Abbreviation send := (zmk_usb_hid_send_report mps).

(** The four things a call of the sender can do to the state. *)
Lemma send_report_cases status wakeup st report len :
  let st' := snd (send status wakeup st report len) in
  st' = st \/ st' = log_wakeup st \/ st' = log_queue_full st \/
  (st' = set_work (k_work_schedule (usb_hid_work st) 0)
           (set_msgq (usb_hid_msgq st ++ [make_msg mps report len]) st) /\
   (length (usb_hid_msgq st) < 8)%nat).
Proof.
  cbv zeta.
  destruct (reaches_default status) eqn:Hs.
  - destruct (Nat.ltb_spec (length (usb_hid_msgq st)) 8) as [Hlt|Hge].
    + right. right. right. rewrite send_report_queued by assumption.
      now split.
    + right. right. left. rewrite send_report_default by assumption.
      unfold k_msgq_put, usb_hid_msgq_max_msgs.
      apply Nat.ltb_ge in Hge. now rewrite Hge.
  - destruct status; try discriminate Hs; auto.
Qed.

(** What a run of the loop leaves behind: an empty queue, or a retry
    scheduled in 10 ms. *)
Lemma work_loop_post n :
  forall st,
    (length (usb_hid_msgq st) <= n)%nat ->
    (usb_hid_msgq (work_loop ep n st) = [] /\
     usb_hid_work (work_loop ep n st) = usb_hid_work st) \/
    (usb_hid_msgq (work_loop ep n st) <> [] /\
     usb_hid_work (work_loop ep n st) = WorkScheduled 10).
Proof.
  induction n as [|n IH]; intros st Hn.
  - left. simpl. destruct (usb_hid_msgq st); simpl in *; [now split|lia].
  - simpl. destruct (usb_hid_msgq st) as [|msg rest] eqn:Hq; simpl.
    + left. now split.
    + destruct (loop_body ep st msg) as [st' again] eqn:Hbody.
      destruct again.
      * assert (Hw : usb_hid_work st' = usb_hid_work st).
        { unfold loop_body in Hbody.
          destruct (_ =? 0); [now injection Hbody as <-|].
          simpl in Hbody. destruct (_ <? 3); [discriminate|].
          now injection Hbody as <-. }
        apply loop_body_again in Hbody. destruct Hbody as [Hq' _].
        rewrite Hq in Hq'. simpl in Hq'.
        rewrite <- Hw. apply IH. rewrite Hq'. simpl in Hn. lia.
      * apply loop_body_return in Hbody.
        destruct Hbody as (Hq' & _ & _ & Hw & _).
        right. split; [|assumption]. rewrite Hq', Hq. discriminate.
Qed.

(** X1.  The queue never holds more than its 8 slots, whatever sequence of
    report submissions, work-queue runs and endpoint-ready callbacks the
    translation unit goes through. *)
Theorem queue_never_exceeds_capacity st :
  reachable ep mps st ->
  (length (usb_hid_msgq st) <= usb_hid_msgq_max_msgs)%nat.
Proof.
  unfold usb_hid_msgq_max_msgs.
  induction 1 as [|st status wakeup report len _ IH|st _ IH|st _ IH].
  - simpl. lia.
  - destruct (send_report_cases status wakeup st report len)
      as [H|[H|[H|[H Hlt]]]]; cbv zeta in H; rewrite H; simpl; try assumption.
    rewrite length_app. simpl. lia.
  - unfold workqueue_run. destruct (usb_hid_work st); [assumption|].
    destruct (work_loop_suffix ep
                (length (usb_hid_msgq (set_work WorkIdle (wait delay_ms st))))
                (set_work WorkIdle (wait delay_ms st))) as [k Hk].
    unfold usb_hid_work_handler. rewrite Hk. simpl.
    rewrite length_skipn. lia.
  - exact IH.
Qed.

Lemma reachable_nonempty_scheduled st :
  reachable ep mps st ->
  usb_hid_msgq st <> [] ->
  exists d, usb_hid_work st = WorkScheduled d.
Proof.
  induction 1 as [|st status wakeup report len _ IH|st _ IH|st _ IH];
    intros Hne.
  - now elim Hne.
  - destruct (send_report_cases status wakeup st report len)
      as [H|[H|[H|[H Hlt]]]]; cbv zeta in H; rewrite H in Hne |- *;
      simpl in Hne |- *; try (now apply IH).
    destruct (usb_hid_work st); simpl; eauto.
  - unfold workqueue_run in Hne |- *.
    destruct (usb_hid_work st) eqn:Hw.
    + rewrite Hw. now apply IH.
    + unfold usb_hid_work_handler in Hne |- *.
      destruct (work_loop_post
                  (length (usb_hid_msgq (set_work WorkIdle (wait delay_ms st))))
                  (set_work WorkIdle (wait delay_ms st)) (le_n _))
        as [[Hq _]|[_ Hs]]; [contradiction|eauto].
  - simpl. eauto.
Qed.

(** X2.  No message is left stranded: in every reachable state with a
    message in the queue, the work item is scheduled, so the handler will
    run again; and when the work item is idle the queue is empty and the
    failure count is 0. *)
Theorem queued_message_has_work_scheduled st :
  reachable ep mps st ->
  (usb_hid_msgq st <> [] -> exists d, usb_hid_work st = WorkScheduled d) /\
  (usb_hid_work st = WorkIdle ->
     usb_hid_msgq st = [] /\ usb_hid_failed st = 0).
Proof.
  intros Hr. split.
  - now apply reachable_nonempty_scheduled.
  - intros Hidle.
    assert (Hq : usb_hid_msgq st = []).
    { destruct (usb_hid_msgq st) as [|m q] eqn:Hq; [reflexivity|].
      destruct (reachable_nonempty_scheduled st Hr) as [d Hd];
        [rewrite Hq; discriminate|congruence]. }
    split; [assumption|].
    now apply (reachable_invariant ep mps st Hr).
Qed.

(** *** Draining with an arbitrary interface *)

(** Reduce the field reads of an updated state, and nothing else. *)
Tactic Notation "st_cbn" hyp(H) :=
  cbn [usb_hid_msgq usb_hid_failed usb_hid_work hid_writes elapsed_ms
       dropped_logged remove_head log_write log_dropped set_failed set_msgq
       set_work wait k_msgq_get tl] in H.

Ltac side_goal Hq :=
  cbn [usb_hid_msgq usb_hid_failed usb_hid_work hid_writes elapsed_ms
       dropped_logged remove_head log_write log_dropped set_failed set_msgq
       set_work wait k_msgq_get tl];
  rewrite ?Hq;
  cbn [k_msgq_get tl length];
  try assumption; try reflexivity; try discriminate; try lia.

Ltac ks_cbn :=
  cbn [length hd combine flat_map list_sum fold_right repeat fst snd app].

Tactic Notation "ks_cbn_in" hyp(H) :=
  cbn [length hd combine flat_map list_sum fold_right repeat fst snd app] in H.

(** The work queue left alone after a handler run, whatever the interface
    answers: the queue empties, and message [i] of the queue was written
    [k_i] times in a row, between once and three times, before the next one
    was touched.  [mu] bounds the writes still possible, three per message
    less the failures already counted against the head. *)
Lemma drain_any_interface (mu : nat) :
  forall st runs,
    usb_hid_work st = WorkIdle ->
    0 <= usb_hid_failed st <= 2 ->
    (usb_hid_msgq st = [] -> usb_hid_failed st = 0) ->
    (3 * length (usb_hid_msgq st) <= mu + Z.to_nat (usb_hid_failed st))%nat ->
    (mu <= runs)%nat ->
    let st' := drain ep runs (handler st) in
    usb_hid_msgq st' = [] /\
    usb_hid_work st' = WorkIdle /\
    usb_hid_failed st' = 0 /\
    exists ks,
      length ks = length (usb_hid_msgq st) /\
      Forall (fun k => (1 <= k <= 3)%nat) ks /\
      Z.of_nat (hd O ks) + usb_hid_failed st <= 3 /\
      map fst (hid_writes st') =
        map fst (hid_writes st) ++
        flat_map (fun mk => repeat (fst mk) (snd mk))
                 (combine (usb_hid_msgq st) ks) /\
      elapsed_ms st' =
        elapsed_ms st + 10 * (Z.of_nat (list_sum ks) - Z.of_nat (length ks)).
Proof.
  induction mu as [|mu IH]; intros st runs Hw Hf Hempty Hmu Hruns;
    cbv zeta.
  - assert (Hq : usb_hid_msgq st = [])
      by (destruct (usb_hid_msgq st); [reflexivity|simpl in Hmu; lia]).
    rewrite (handler_empty ep st Hq), (drain_idle ep runs st Hw).
    repeat split; auto.
    exists []. rewrite Hq. simpl. rewrite app_nil_r.
    repeat split; auto; lia.
  - destruct (usb_hid_msgq st) as [|msg rest] eqn:Hq.
    + rewrite (handler_empty ep st Hq), (drain_idle ep runs st Hw).
      repeat split; auto.
      exists []. simpl. rewrite app_nil_r. repeat split; auto; lia.
    + simpl in Hmu.
      destruct (Z.eq_dec (ep (length (hid_writes st)) msg) 0) as [Herr|Herr].
      * (* written: on to the rest *)
        rewrite (handler_success ep st msg rest Hq Herr).
        destruct (IH (remove_head (log_write msg 0 st)) runs)
          as (H1 & H2 & H3 & ks & K1 & K2 & K3 & K4 & K5);
          [side_goal Hq .. |].
        st_cbn K1; st_cbn K3; st_cbn K4; st_cbn K5; rewrite Hq in K1, K4; st_cbn K1; st_cbn K4.
        repeat split; try assumption.
        exists (1%nat :: ks). ks_cbn. repeat split.
        -- now rewrite K1.
        -- constructor; [lia|assumption].
        -- lia.
        -- rewrite K4, map_app. cbn [map fst app]. now rewrite <- !app_assoc.
        -- rewrite K5. unfold list_sum. cbn [fold_right]. lia.
      * destruct (Z_lt_ge_dec (usb_hid_failed st + 1) 3) as [Hlt|Hge].
        -- (* failed, retried 10 ms later *)
           rewrite (handler_retry ep st msg rest Hq Herr Hlt).
           destruct runs as [|runs]; [lia|].
           match goal with
           | |- context [drain ep (S runs) ?s] =>
               rewrite (drain_scheduled ep runs s 10 eq_refl)
           end.
           match goal with
           | |- context [usb_hid_work_handler ep ?s] =>
               destruct (IH s runs)
                 as (H1 & H2 & H3 & ks & K1 & K2 & K3 & K4 & K5);
                 [side_goal Hq .. |]
           end.
           st_cbn K1; st_cbn K3; st_cbn K4; st_cbn K5; rewrite Hq in K1, K4; st_cbn K1; st_cbn K4.
           repeat split; try assumption.
           destruct ks as [|k ks]; [discriminate K1|].
           exists (S k :: ks). ks_cbn. ks_cbn_in K1; ks_cbn_in K3; ks_cbn_in K4; ks_cbn_in K5. repeat split.
           ++ assumption.
           ++ inversion K2; subst. constructor; [lia|assumption].
           ++ lia.
           ++ rewrite K4, map_app. cbn [map fst app]. now rewrite <- !app_assoc.
           ++ rewrite K5. unfold list_sum. cbn [fold_right]. lia.
        -- (* failed for the third time: dropped, on to the rest *)
           rewrite (handler_drop ep st msg rest Hq Herr) by lia.
           match goal with
           | |- context [usb_hid_work_handler ep ?s] =>
               destruct (IH s runs)
                 as (H1 & H2 & H3 & ks & K1 & K2 & K3 & K4 & K5);
                 [side_goal Hq .. |]
           end.
           st_cbn K1; st_cbn K3; st_cbn K4; st_cbn K5; rewrite Hq in K1, K4; st_cbn K1; st_cbn K4.
           repeat split; try assumption.
           exists (1%nat :: ks). ks_cbn. repeat split.
           ++ now rewrite K1.
           ++ constructor; [lia|assumption].
           ++ lia.
           ++ rewrite K4, map_app. cbn [map fst app]. now rewrite <- !app_assoc.
           ++ rewrite K5. unfold list_sum. cbn [fold_right]. lia.
Qed.

Lemma attempts_length (q : list usb_hid_msg) :
  forall ks,
    length ks = length q ->
    length (flat_map (fun mk : usb_hid_msg * nat => repeat (fst mk) (snd mk))
                     (combine q ks))
    = list_sum ks.
Proof.
  induction q as [|m q IH]; intros [|k ks] Hlen; try discriminate Hlen.
  - reflexivity.
  - cbn [combine flat_map fst snd]. rewrite length_app, repeat_length.
    rewrite IH by (simpl in Hlen; lia). reflexivity.
Qed.

(** From any reachable state, enough runs of the work queue: the shape of
    what happens, for every interface. *)
Lemma drain_reachable st runs :
  reachable ep mps st ->
  (3 * length (usb_hid_msgq st) < runs)%nat ->
  let st' := drain ep runs st in
  let d := match usb_hid_work st with WorkIdle => 0 | WorkScheduled d => d end in
  usb_hid_msgq st' = [] /\
  usb_hid_work st' = WorkIdle /\
  usb_hid_failed st' = 0 /\
  exists ks,
    length ks = length (usb_hid_msgq st) /\
    Forall (fun k => (1 <= k <= 3)%nat) ks /\
    map fst (hid_writes st') =
      map fst (hid_writes st) ++
      flat_map (fun mk => repeat (fst mk) (snd mk))
               (combine (usb_hid_msgq st) ks) /\
    elapsed_ms st' =
      elapsed_ms st + d +
      10 * (Z.of_nat (list_sum ks) - Z.of_nat (length ks)).
Proof.
  intros Hr Hruns. cbv zeta.
  pose proof (reachable_invariant ep mps st Hr) as (Hf & Hempty & _).
  destruct (usb_hid_work st) as [|d] eqn:Hw.
  - rewrite (drain_idle ep runs st Hw).
    assert (Hq : usb_hid_msgq st = []).
    { destruct (usb_hid_msgq st) as [|m q] eqn:Hq; [reflexivity|].
      destruct (reachable_nonempty_scheduled st Hr) as [d Hd];
        [rewrite Hq; discriminate|congruence]. }
    repeat split; auto.
    exists []. rewrite Hq. simpl. rewrite app_nil_r.
    repeat split; auto; lia.
  - destruct runs as [|runs]; [lia|].
    rewrite (drain_scheduled ep runs st d Hw).
    destruct (drain_any_interface (3 * length (usb_hid_msgq st))
                (set_work WorkIdle (wait d st)) runs)
      as (H1 & H2 & H3 & ks & K1 & K2 & _ & K4 & K5);
      try assumption; try reflexivity; [simpl; lia|lia|].
    repeat split; try assumption.
    exists ks. repeat split; assumption.
Qed.

(** X3.  Left alone, the work queue always empties the queue, whatever the
    interface answers: from any reachable state, more runs of the handler
    than three times the number of queued messages leave the queue empty,
    the work item idle and the failure count at 0. *)
Theorem drain_always_empties_queue st runs :
  reachable ep mps st ->
  (3 * length (usb_hid_msgq st) < runs)%nat ->
  let st' := drain ep runs st in
  usb_hid_msgq st' = [] /\
  usb_hid_work st' = WorkIdle /\
  usb_hid_failed st' = 0.
Proof.
  intros Hr Hruns.
  destruct (drain_reachable st runs Hr Hruns) as (H1 & H2 & H3 & _).
  now repeat split.
Qed.

(** X4.  The queue is served in order under every interface, not only a
    succeeding one: draining from a reachable state writes the first
    message between one and three times, then the second between one and
    three times, and so on through the queue; no message is skipped and none
    is written after a later one. *)
Theorem drain_writes_in_queue_order st runs :
  reachable ep mps st ->
  (3 * length (usb_hid_msgq st) < runs)%nat ->
  exists ks,
    length ks = length (usb_hid_msgq st) /\
    Forall (fun k => (1 <= k <= 3)%nat) ks /\
    map fst (hid_writes (drain ep runs st)) =
      map fst (hid_writes st) ++
      flat_map (fun mk => repeat (fst mk) (snd mk))
               (combine (usb_hid_msgq st) ks).
Proof.
  intros Hr Hruns.
  destruct (drain_reachable st runs Hr Hruns)
    as (_ & _ & _ & ks & K1 & K2 & K4 & _).
  exists ks. now repeat split.
Qed.

(** X5.  The time the work item spends waiting while it drains is its
    initial delay plus 10 ms for every write beyond the first of each
    message: with [n] messages queued and [w] writes made, [10 * (w - n)]
    milliseconds, hence at most 20 ms per message. *)
Theorem drain_backoff_total st runs d :
  reachable ep mps st ->
  usb_hid_work st = WorkScheduled d ->
  (3 * length (usb_hid_msgq st) < runs)%nat ->
  let st' := drain ep runs st in
  let n := Z.of_nat (length (usb_hid_msgq st)) in
  let w := Z.of_nat (length (hid_writes st')) -
           Z.of_nat (length (hid_writes st)) in
  elapsed_ms st' = elapsed_ms st + d + 10 * (w - n) /\
  n <= w <= 3 * n.
Proof.
  intros Hr Hw Hruns. cbv zeta.
  destruct (drain_reachable st runs Hr Hruns)
    as (_ & _ & _ & ks & K1 & K2 & K4 & K5).
  cbv zeta in K5. rewrite Hw in K5.
  apply (f_equal (@length _)) in K4.
  rewrite !length_map, length_app, length_map, attempts_length in K4
    by assumption.
  assert (Hsum : (length ks <= list_sum ks <= 3 * length ks)%nat).
  { clear -K2. induction K2 as [|k ks Hk _ IH]; simpl; lia. }
  rewrite K5, K4, <- K1. split; lia.
Qed.

(** *** What a drop has behind it *)

Lemma loop_body_recent_failures st msg rest :
  usb_hid_msgq st = msg :: rest ->
  failed_invariant st ->
  recent_failures st ->
  recent_failures (fst (loop_body ep st msg)).
Proof.
  intros Hq (Hrange & _ & _) (earlier & recent & Hw & Hlen & Hall).
  destruct (Z.eq_dec (ep (length (hid_writes st)) msg) 0) as [Herr|Herr].
  - rewrite loop_body_success by assumption.
    exists (hid_writes st ++ [(msg, 0)]), []. simpl.
    rewrite app_nil_r. repeat split. constructor.
  - destruct (Z_lt_ge_dec (usb_hid_failed st + 1) 3) as [Hlt|Hge].
    + rewrite loop_body_retry by assumption.
      exists earlier, (recent ++ [(msg, ep (length (hid_writes st)) msg)]).
      cbn [fst hid_writes usb_hid_failed usb_hid_msgq set_work set_failed
           log_write].
      split; [|split].
      * now rewrite Hw at 1; rewrite app_assoc.
      * rewrite length_app. cbn [length]. lia.
      * apply Forall_app. split; [assumption|].
        constructor; [|constructor]. cbn [fst snd]. rewrite Hq. now split.
    + rewrite loop_body_drop by (assumption || lia).
      eexists _, []. simpl. rewrite app_nil_r. repeat split. constructor.
Qed.

Lemma work_loop_recent_failures n :
  forall st,
    failed_invariant st -> recent_failures st ->
    recent_failures (work_loop ep n st).
Proof.
  induction n as [|n IH]; intros st Hinv Hrec; simpl; [assumption|].
  destruct (usb_hid_msgq st) as [|msg rest] eqn:Hq; simpl; [assumption|].
  pose proof (loop_body_invariant ep st msg rest Hq Hinv) as Hinv'.
  pose proof (loop_body_recent_failures st msg rest Hq Hinv Hrec) as Hrec'.
  destruct (loop_body ep st msg) as [st' again]. simpl in Hinv', Hrec'.
  destruct again; [now apply IH|assumption].
Qed.

Lemma reachable_recent_failures st :
  reachable ep mps st -> recent_failures st.
Proof.
  induction 1 as [|st status wakeup report len Hr IH|st Hr IH|st Hr IH].
  - exists [], []. repeat split. constructor.
  - pose proof (reachable_invariant ep mps st Hr) as (_ & Hempty & _).
    destruct IH as (earlier & recent & Hw & Hlen & Hall).
    destruct (send_report_cases status wakeup st report len)
      as [H|[H|[H|[H Hlt]]]]; cbv zeta in H; rewrite H;
      try (exists earlier, recent; now repeat split).
    exists earlier, recent. simpl. repeat split; try assumption.
    destruct (usb_hid_msgq st) as [|m q] eqn:Hq.
    + rewrite (Hempty eq_refl) in Hlen.
      destruct recent; [constructor|simpl in Hlen; lia].
    + exact Hall.
  - unfold workqueue_run. destruct (usb_hid_work st); [assumption|].
    apply work_loop_recent_failures.
    + exact (reachable_invariant ep mps st Hr).
    + exact IH.
  - exact IH.
Qed.

(** X6.  A message is dropped only after three failed writes of that very
    message in a row: when a pass of the loop body in a reachable state
    logs a drop, the trace of writes ends with three failed writes of the
    head, the third being the one just made, and the head is what leaves
    the queue. *)
Theorem drop_follows_three_failed_writes st msg :
  reachable ep mps st ->
  k_msgq_peek (usb_hid_msgq st) = Some msg ->
  let st' := fst (loop_body ep st msg) in
  dropped_logged st' <> dropped_logged st ->
  exists earlier e1 e2 e3,
    hid_writes st = earlier ++ [(msg, e1); (msg, e2)] /\
    hid_writes st' = earlier ++ [(msg, e1); (msg, e2); (msg, e3)] /\
    e1 <> 0 /\ e2 <> 0 /\ e3 <> 0 /\
    usb_hid_msgq st' = tl (usb_hid_msgq st).
Proof.
  intros Hr Hpeek st' Hdrop. subst st'.
  pose proof (reachable_invariant ep mps st Hr) as (Hrange & _ & _).
  destruct (reachable_recent_failures st Hr)
    as (earlier & recent & Hw & Hlen & Hall).
  destruct (Z.eq_dec (ep (length (hid_writes st)) msg) 0) as [Herr|Herr].
  - rewrite loop_body_success in Hdrop by assumption. now elim Hdrop.
  - destruct (Z_lt_ge_dec (usb_hid_failed st + 1) 3) as [Hlt|Hge].
    + rewrite loop_body_retry in Hdrop by assumption. now elim Hdrop.
    + rewrite loop_body_drop by (assumption || lia). simpl.
      destruct recent as [|[m1 e1] [|[m2 e2] [|w3 recent]]];
        simpl in Hlen; try lia.
      inversion Hall as [|? ? [He1 Hm1] Hall']; subst.
      inversion Hall' as [|? ? [He2 Hm2] _]; subst.
      simpl in He1, Hm1, He2, Hm2.
      rewrite Hpeek in Hm1, Hm2.
      injection Hm1 as <-. injection Hm2 as <-.
      exists earlier, e1, e2, (ep (length (hid_writes st)) msg).
      repeat split; try assumption.
      rewrite Hw at 1. now rewrite <- app_assoc.
Qed.

(** *** The delay of a pending retry *)

Lemma work_loop_elapsed n :
  forall st, elapsed_ms (work_loop ep n st) = elapsed_ms st.
Proof.
  induction n as [|n IH]; intros st; simpl; [reflexivity|].
  destruct (usb_hid_msgq st) as [|msg rest]; simpl; [reflexivity|].
  unfold loop_body.
  destruct (_ =? 0); [now rewrite IH|]. simpl.
  destruct (_ <? 3); [reflexivity|now rewrite IH].
Qed.

(** X7.  While a retry is pending, submitting a report never changes its
    delay, whatever the status and whether or not the report is queued; the
    endpoint-ready callback replaces the delay by none, and the run of the
    handler that follows it has waited no time at all. *)
Theorem pending_retry_delay st d status wakeup report len :
  usb_hid_work st = WorkScheduled d ->
  usb_hid_work (snd (send status wakeup st report len)) = WorkScheduled d /\
  usb_hid_work (in_ready_cb st) = WorkScheduled 0 /\
  elapsed_ms (workqueue_run ep (in_ready_cb st)) = elapsed_ms st /\
  elapsed_ms (workqueue_run ep st) = elapsed_ms st + d.
Proof.
  intros Hw. split; [|split; [|split]].
  - destruct (send_report_cases status wakeup st report len)
      as [H|[H|[H|[H Hlt]]]]; cbv zeta in H; rewrite H; simpl;
      rewrite ?Hw; reflexivity.
  - reflexivity.
  - unfold workqueue_run, in_ready_cb, usb_hid_work_handler. simpl.
    rewrite work_loop_elapsed. simpl. lia.
  - unfold workqueue_run, usb_hid_work_handler. rewrite Hw.
    rewrite work_loop_elapsed. reflexivity.
Qed.

Lemma make_msg_fits (report : list Z) :
  (length report <= mps)%nat ->
  Z.of_nat (length report) < 256 ->
  make_msg mps report (Z.of_nat (length report)) =
    {| data := report ++ repeat 0 (mps - length report);
       UsbHid.len := Z.of_nat (length report) |}.
Proof.
  intros Hfit Hsmall. unfold make_msg. f_equal.
  - apply (nth_ext _ _ 0 0).
    + rewrite load_bytes_length, length_app, repeat_length. lia.
    + intros i Hi. rewrite load_bytes_length in Hi.
      rewrite load_bytes_nth by assumption.
      destruct (Nat.lt_ge_cases i (length report)) as [Hin|Hout].
      * rewrite memcpy_inside by lia. rewrite app_nth1 by assumption.
        f_equal. lia.
      * rewrite memcpy_outside by lia. rewrite app_nth2 by assumption.
        now rewrite nth_repeat.
  - unfold to_uint8. apply Z.mod_small. lia.
Qed.

(** X8.  The message built for a report holds the report: for a report of
    [len] bytes that fits the message ([len] at most
    [CONFIG_HID_INTERRUPT_EP_MPS] and below 256), [data] is the report
    followed by zeros up to the size of the array, and the [len] field is
    [len]. *)
Theorem make_msg_holds_report (report : list Z) :
  (length report <= mps)%nat ->
  Z.of_nat (length report) < 256 ->
  let msg := make_msg mps report (Z.of_nat (length report)) in
  data msg = report ++ repeat 0 (mps - length report) /\
  UsbHid.len msg = Z.of_nat (length report).
Proof.
  intros Hfit Hsmall. cbv zeta. rewrite make_msg_fits by assumption.
  now split.
Qed.

End Transport.

(** *** The theorems at concrete inputs *)

Lemma one_queued_reachable ep : reachable ep 8 one_queued.
Proof. apply reachable_send, reachable_initial. Qed.

Lemma twice_failed_reachable : reachable always_fails 8 twice_failed.
Proof. apply reachable_run, reachable_run, one_queued_reachable. Qed.

Lemma queue_never_exceeds_capacity_witness :
  (length (usb_hid_msgq twice_failed) <= usb_hid_msgq_max_msgs)%nat.
Proof.
  apply (queue_never_exceeds_capacity always_fails 8 twice_failed).
  exact twice_failed_reachable.
Defined.

Lemma queued_message_has_work_scheduled_witness :
  exists d, usb_hid_work twice_failed = WorkScheduled d.
Proof.
  apply (queued_message_has_work_scheduled always_fails 8 twice_failed).
  - exact twice_failed_reachable.
  - discriminate.
Defined.

Lemma drain_always_empties_queue_witness :
  let st' := drain always_fails 4 twice_failed in
  usb_hid_msgq st' = [] /\
  usb_hid_work st' = WorkIdle /\
  usb_hid_failed st' = 0.
Proof.
  apply (drain_always_empties_queue always_fails 8 twice_failed 4).
  - exact twice_failed_reachable.
  - simpl. lia.
Defined.

Lemma drain_writes_in_queue_order_witness :
  exists ks,
    length ks = length (usb_hid_msgq one_queued) /\
    Forall (fun k => (1 <= k <= 3)%nat) ks /\
    map fst (hid_writes (drain always_fails 4 one_queued)) =
      map fst (hid_writes one_queued) ++
      flat_map (fun mk => repeat (fst mk) (snd mk))
               (combine (usb_hid_msgq one_queued) ks).
Proof.
  apply (drain_writes_in_queue_order always_fails 8 one_queued 4).
  - apply one_queued_reachable.
  - simpl. lia.
Defined.

Lemma drain_backoff_total_witness :
  let st' := drain always_fails 4 one_queued in
  let n := Z.of_nat (length (usb_hid_msgq one_queued)) in
  let w := Z.of_nat (length (hid_writes st')) -
           Z.of_nat (length (hid_writes one_queued)) in
  elapsed_ms st' = elapsed_ms one_queued + 0 + 10 * (w - n) /\
  n <= w <= 3 * n.
Proof.
  apply (drain_backoff_total always_fails 8 one_queued 4 0).
  - apply one_queued_reachable.
  - reflexivity.
  - simpl. lia.
Defined.

Lemma drop_follows_three_failed_writes_witness :
  let msg := make_msg 8 [1] 1 in
  let st' := fst (loop_body always_fails twice_failed msg) in
  exists earlier e1 e2 e3,
    hid_writes twice_failed = earlier ++ [(msg, e1); (msg, e2)] /\
    hid_writes st' = earlier ++ [(msg, e1); (msg, e2); (msg, e3)] /\
    e1 <> 0 /\ e2 <> 0 /\ e3 <> 0 /\
    usb_hid_msgq st' = tl (usb_hid_msgq twice_failed).
Proof.
  apply (drop_follows_three_failed_writes always_fails 8 twice_failed
           (make_msg 8 [1] 1)).
  - exact twice_failed_reachable.
  - reflexivity.
  - simpl. discriminate.
Defined.

Lemma pending_retry_delay_witness :
  let st := state_with_queue [sample_msg 1] (WorkScheduled 10) in
  usb_hid_work (snd (zmk_usb_hid_send_report 8 USB_DC_CONFIGURED 0 st [2] 1))
    = WorkScheduled 10 /\
  usb_hid_work (in_ready_cb st) = WorkScheduled 0 /\
  elapsed_ms (workqueue_run always_fails (in_ready_cb st)) = elapsed_ms st /\
  elapsed_ms (workqueue_run always_fails st) = elapsed_ms st + 10.
Proof.
  apply (pending_retry_delay always_fails 8
           (state_with_queue [sample_msg 1] (WorkScheduled 10)) 10
           USB_DC_CONFIGURED 0 [2] 1).
  reflexivity.
Defined.

Lemma make_msg_holds_report_witness :
  let msg := make_msg 8 [1; 2] (Z.of_nat (length [1; 2])) in
  data msg = [1; 2] ++ repeat 0 (8 - length [1; 2]) /\
  UsbHid.len msg = Z.of_nat (length [1; 2]).
Proof.
  apply (make_msg_holds_report 8 [1; 2]).
  - simpl. lia.
  - simpl. lia.
Defined.

End UsbHidMore.

(** * Further properties of the split service *)

Lemma c_string_ext (m1 m2 : memory) (bound : nat) :
  forall addr,
    (forall a, addr <= a < addr + Z.of_nat bound -> m1 a = m2 a) ->
    c_string m1 addr bound = c_string m2 addr bound.
Proof.
  induction bound as [|k IH]; intros addr H; simpl; [reflexivity|].
  rewrite <- (H addr) by lia.
  destruct (m1 addr =? 0); [reflexivity|].
  f_equal. apply IH. intros a Ha. apply H. lia.
Qed.

Lemma load_uint_ext (m1 m2 : memory) (addr : Z) (n : nat) :
  (forall a, addr <= a < addr + Z.of_nat n -> m1 a = m2 a) ->
  load_uint m1 addr n = load_uint m2 addr n.
Proof. intros H. unfold load_uint. now rewrite (load_bytes_ext m1 m2). Qed.

(** A buffer copied to address 0: what the memory holds behind a prefix of
    the buffer. *)
Lemma memcpy_at (m : memory) (pre post : list Z) (i : nat) :
  (i < length post)%nat ->
  memcpy m 0 (pre ++ post) (Z.of_nat (length (pre ++ post)))
         (Z.of_nat (length pre) + Z.of_nat i)
  = nth i post 0.
Proof.
  intros Hi. rewrite memcpy_inside by (rewrite length_app; lia).
  replace (Z.to_nat (Z.of_nat (length pre) + Z.of_nat i - 0))
    with (length pre + i)%nat by lia.
  now rewrite app_nth2_plus.
Qed.

Lemma load_field (m : memory) (buf pre mid post : list Z) :
  buf = pre ++ mid ++ post ->
  load_bytes (memcpy m 0 buf (Z.of_nat (length buf)))
             (Z.of_nat (length pre)) (length mid)
  = mid.
Proof.
  intros ->. apply (nth_ext _ _ 0 0).
  - apply load_bytes_length.
  - intros i Hi. rewrite load_bytes_length in Hi.
    rewrite load_bytes_nth by assumption.
    rewrite memcpy_at by (rewrite length_app; lia).
    now rewrite app_nth1.
Qed.

Module ServiceMoreFacts.
Import Service ServiceMore ServiceFacts.

Lemma le_bytes_length (n : nat) : forall v, length (le_bytes n v) = n.
Proof. induction n as [|n IH]; intros v; simpl; [reflexivity|]. now rewrite IH. Qed.

(** Decoding undoes the little-endian encoding of a value that fits. *)
Lemma le_uint_le_bytes (n : nat) :
  forall v, 0 <= v < 256 ^ Z.of_nat n -> le_uint (le_bytes n v) = v.
Proof.
  induction n as [|n IH]; intros v Hv.
  - simpl in *. lia.
  - cbn [le_bytes le_uint].
    rewrite Nat2Z.inj_succ, Z.pow_succ_r in Hv by lia.
    rewrite IH.
    + pose proof (Z.div_mod v 256). lia.
    + split; [apply Z.div_pos; lia|].
      apply Z.div_lt_upper_bound; lia.
Qed.

Lemma bytes_of_string_length (s : string) :
  length (bytes_of_string s) = String.length s.
Proof. induction s as [|c s IH]; simpl; [reflexivity|]. now rewrite IH. Qed.

(** Reading a C string back from where its bytes and its NUL lie. *)
Lemma c_string_reads (s : string) :
  forall (m : memory) (addr : Z) (bound : nat),
    (forall i, (i < String.length s)%nat ->
               m (addr + Z.of_nat i) = nth i (bytes_of_string s) 0) ->
    m (addr + Z.of_nat (String.length s)) = 0 ->
    Forall (fun b => b <> 0) (bytes_of_string s) ->
    (String.length s < bound)%nat ->
    c_string m addr bound = s.
Proof.
  induction s as [|c s IH]; intros m addr bound Hbytes Hnul Hnz Hb.
  - destruct bound; [simpl in Hb; lia|]. simpl in *.
    replace (addr + 0) with addr in Hnul by lia. now rewrite Hnul.
  - destruct bound; [simpl in Hb; lia|]. cbn [c_string].
    pose proof (Hbytes O ltac:(simpl; lia)) as H0.
    replace (addr + Z.of_nat 0) with addr in H0 by lia.
    cbn [bytes_of_string nth] in H0.
    inversion Hnz as [|b bs Hc Hrest]; subst.
    rewrite H0. apply Z.eqb_neq in Hc. rewrite Hc.
    rewrite N2Z.id, ascii_N_embedding. f_equal.
    apply IH.
    + intros i Hi. specialize (Hbytes (S i) ltac:(simpl; lia)).
      cbn [bytes_of_string nth] in Hbytes. rewrite <- Hbytes.
      f_equal. lia.
    + rewrite <- Hnul. f_equal. simpl String.length. lia.
    + assumption.
    + simpl in Hb. lia.
Qed.

(** X9.  A payload written in one call at offset 0 is decoded as it was
    encoded: for [spec_layout], with the integers in range, a name without
    NUL that leaves room for its terminator, the callback accepts the
    write and makes exactly one call into the behavior engine, a press when
    the state byte is non-zero and a release when it is zero, carrying the
    name, both parameters and the position that were encoded. *)
Theorem run_behavior_decodes_single_write
    dev_len engine now st pos p1 p2 key_state name :
  0 <= pos < 65536 ->
  0 <= p1 < 4294967296 ->
  0 <= p2 < 4294967296 ->
  0 <= key_state < 256 ->
  Forall (fun b => b <> 0) (bytes_of_string name) ->
  Z.of_nat (String.length name) < dev_len ->
  11 + dev_len < 65536 ->
  let buf := encode_payload pos p1 p2 key_state name in
  let r :=
    split_svc_run_behavior (spec_layout dev_len) engine now st buf
                           (Z.of_nat (length buf)) 0 in
  let binding := {| behavior_dev := name; param1 := p1; param2 := p2 |} in
  let event := {| position := pos; timestamp := now |} in
  fst r = Z.of_nat (length buf) /\
  dispatched (snd r) =
    dispatched st ++
    [if 0 <? key_state then Pressed binding event
     else Released binding event].
Proof.
  intros Hpos Hp1 Hp2 Hst Hnz Hname Hmax buf r binding event.
  assert (Hlen : Z.of_nat (length buf) = 12 + Z.of_nat (String.length name)).
  { unfold buf, encode_payload.
    rewrite !length_app, !le_bytes_length, bytes_of_string_length.
    cbn [length]. lia. }
  set (m := memcpy (behavior_run_payload st) 0 buf (Z.of_nat (length buf))).
  assert (Fpos : load_uint m 0 2 = pos).
  { unfold load_uint.
    rewrite (load_field _ buf [] (le_bytes 2 pos) _ eq_refl : 
               load_bytes m 0 2 = le_bytes 2 pos).
    apply le_uint_le_bytes. simpl. lia. }
  assert (Fp1 : load_uint m 2 4 = p1).
  { unfold load_uint.
    rewrite (load_field _ buf (le_bytes 2 pos) (le_bytes 4 p1) _ eq_refl :
               load_bytes m 2 4 = le_bytes 4 p1).
    apply le_uint_le_bytes. simpl. lia. }
  assert (Fp2 : load_uint m 6 4 = p2).
  { unfold load_uint.
    rewrite (load_field _ buf (le_bytes 2 pos ++ le_bytes 4 p1)
               (le_bytes 4 p2) _ eq_refl :
               load_bytes m 6 4 = le_bytes 4 p2).
    apply le_uint_le_bytes. simpl. lia. }
  assert (Fst : load_uint m 10 1 = key_state).
  { unfold load_uint.
    rewrite (load_field _ buf
               (le_bytes 2 pos ++ le_bytes 4 p1 ++ le_bytes 4 p2)
               [key_state] _ eq_refl :
               load_bytes m 10 1 = [key_state]).
    cbn [le_uint]. lia. }
  assert (Fname : forall i, (i <= String.length name)%nat ->
            m (11 + Z.of_nat i) = nth i (bytes_of_string name ++ [0]) 0).
  { intros i Hi.
    exact (memcpy_at _
             (le_bytes 2 pos ++ le_bytes 4 p1 ++ le_bytes 4 p2 ++ [key_state])
             (bytes_of_string name ++ [0]) i
             ltac:(rewrite length_app, bytes_of_string_length;
                   cbn [length]; lia)). }
  assert (Fstr : c_string m 11 (Z.to_nat dev_len) = name).
  { apply c_string_reads.
    - intros i Hi. rewrite Fname by lia.
      apply app_nth1. now rewrite bytes_of_string_length.
    - rewrite Fname by lia.
      rewrite app_nth2 by (rewrite bytes_of_string_length; lia).
      rewrite bytes_of_string_length, Nat.sub_diag. reflexivity.
    - assumption.
    - lia. }
  assert (Frun : run_condition (spec_layout dev_len) m
                   (Z.of_nat (length buf)) = true).
  { unfold run_condition. cbn [sizeof_data behavior_dev_offset spec_layout].
    apply andb_true_intro. split; [apply Z.ltb_lt; lia|].
    apply Z.eqb_eq.
    replace (11 + (Z.of_nat (length buf) - 11 - 1))
      with (11 + Z.of_nat (String.length name)) by lia.
    rewrite Fname by lia.
    rewrite app_nth2 by (rewrite bytes_of_string_length; lia).
    rewrite bytes_of_string_length, Nat.sub_diag. reflexivity. }
  subst r. unfold split_svc_run_behavior.
  cbn [sizeof_payload spec_layout].
  replace (0 + Z.of_nat (length buf)) with (Z.of_nat (length buf)) by lia.
  rewrite to_uint16_small by lia.
  destruct (11 + dev_len <? Z.of_nat (length buf)) eqn:Hrej;
    [apply Z.ltb_lt in Hrej; lia|].
  replace (0 * (11 + dev_len)) with 0 by lia.
  fold m. rewrite Frun.
  unfold decode_binding, decode_event.
  cbn [param1_offset param2_offset behavior_dev_offset position_offset
       position_size state_offset ZMK_SPLIT_RUN_BEHAVIOR_DEV_LEN spec_layout
       fst snd dispatched].
  rewrite Fpos, Fp1, Fp2, Fst, Fstr.
  split; [reflexivity|].
  destruct (0 <? key_state); reflexivity.
Qed.

(** What the callback dispatches is a function of the memory after the copy
    and of where the write ends. *)
Lemma run_behavior_accepted_unfold L engine now st buf len offset :
  to_uint16 (offset + len) <= sizeof_payload L ->
  let m := memcpy (behavior_run_payload st) (offset * sizeof_payload L) buf len in
  let binding := decode_binding L m in
  let event := decode_event L m now in
  let pressed := 0 <? load_uint m (state_offset L) 1 in
  dispatched (snd (split_svc_run_behavior L engine now st buf len offset)) =
    dispatched st ++
    (if run_condition L m (to_uint16 (offset + len))
     then [if pressed then Pressed binding event else Released binding event]
     else []).
Proof.
  intros Hend. cbv zeta. unfold split_svc_run_behavior.
  destruct (sizeof_payload L <? to_uint16 (offset + len)) eqn:Hrej;
    [apply Z.ltb_lt in Hrej; lia|].
  destruct (run_condition L _ _); simpl; [reflexivity|].
  now rewrite app_nil_r.
Qed.

Lemma memcpy_twice (m : memory) (dst : Z) (src : list Z) (n a : Z) :
  memcpy (memcpy m dst src n) dst src n a = memcpy m dst src n a.
Proof.
  unfold memcpy. destruct ((dst <=? a) && (a <? dst + n)); reflexivity.
Qed.

(** X10.  The callback keeps nothing between calls but the bytes: the same
    write made a second time (read at the same uptime) returns the same
    status, leaves every byte as the first call left it, and makes the same
    call into the behavior engine again if the first made one. *)
Theorem run_behavior_repeated_write L engine now st buf len offset :
  let r1 := split_svc_run_behavior L engine now st buf len offset in
  let r2 := split_svc_run_behavior L engine now (snd r1) buf len offset in
  fst r2 = fst r1 /\
  (forall a, behavior_run_payload (snd r2) a = behavior_run_payload (snd r1) a) /\
  exists ds,
    dispatched (snd r1) = dispatched st ++ ds /\
    dispatched (snd r2) = dispatched (snd r1) ++ ds.
Proof.
  cbv zeta.
  destruct (Z_lt_ge_dec (sizeof_payload L) (to_uint16 (offset + len)))
    as [Hrej|Hacc].
  - assert (H : forall s, split_svc_run_behavior L engine now s buf len offset
                          = (BT_GATT_ERR BT_ATT_ERR_INVALID_OFFSET, s)).
    { intros s. unfold split_svc_run_behavior.
      apply Z.ltb_lt in Hrej. now rewrite Hrej. }
    rewrite !H. simpl. repeat split.
    exists []. now rewrite !app_nil_r.
  - assert (Hacc' : to_uint16 (offset + len) <= sizeof_payload L) by lia.
    set (r1 := split_svc_run_behavior L engine now st buf len offset).
    pose proof (run_behavior_accepted_memory L engine now st buf len offset
                  Hacc') as M1.
    pose proof (run_behavior_accepted_memory L engine now (snd r1) buf len
                  offset Hacc') as M2.
    fold r1 in M1.
    assert (Hm : forall a,
              memcpy (behavior_run_payload (snd r1))
                     (offset * sizeof_payload L) buf len a =
              behavior_run_payload (snd r1) a).
    { intros a. rewrite M1. apply memcpy_twice. }
    split; [|split].
    + unfold r1. rewrite !run_behavior_accepted_returns_len; auto.
    + intros a. rewrite M2. apply Hm.
    + eexists. split.
      * apply (run_behavior_accepted_unfold L engine now st buf len offset Hacc').
      * rewrite (run_behavior_accepted_unfold L engine now (snd r1) buf len
                   offset Hacc').
        cbv zeta. f_equal. fold r1. rewrite <- M1.
        set (m1 := behavior_run_payload (snd r1)) in *.
        set (m2 := memcpy m1 (offset * sizeof_payload L) buf len) in *.
        assert (Hrun : run_condition L m2 (to_uint16 (offset + len)) =
                       run_condition L m1 (to_uint16 (offset + len)))
          by (unfold run_condition; now rewrite Hm).
        assert (Hb : decode_binding L m2 = decode_binding L m1).
        { unfold decode_binding.
          rewrite !(load_uint_ext m2 m1) by (intros; apply Hm).
          now rewrite (c_string_ext m2 m1) by (intros; apply Hm). }
        assert (He : decode_event L m2 now = decode_event L m1 now).
        { unfold decode_event.
          now rewrite (load_uint_ext m2 m1) by (intros; apply Hm). }
        assert (Hs : load_uint m2 (state_offset L) 1 =
                     load_uint m1 (state_offset L) 1)
          by (apply load_uint_ext; intros; apply Hm).
        now rewrite Hrun, Hb, He, Hs.
Qed.

(** X11.  For [spec_layout], a write at any offset from 1 upwards
    dispatches without regard to the bytes it carries: two such writes of
    the same length at the same offset, with different contents, return the
    same status and dispatch the same calls. *)
Theorem run_behavior_offset_write_ignores_data
    dev_len engine now st buf buf' len offset :
  0 < dev_len ->
  1 <= offset -> 0 <= len ->
  let L := spec_layout dev_len in
  let r := split_svc_run_behavior L engine now st buf len offset in
  let r' := split_svc_run_behavior L engine now st buf' len offset in
  fst r = fst r' /\ dispatched (snd r) = dispatched (snd r').
Proof.
  intros Hdev Hoff Hlen L r r'. subst r r'.
  destruct (Z_lt_ge_dec (sizeof_payload L) (to_uint16 (offset + len)))
    as [Hrej|Hacc].
  - unfold split_svc_run_behavior.
    apply Z.ltb_lt in Hrej. rewrite Hrej. now split.
  - assert (Hacc' : to_uint16 (offset + len) <= sizeof_payload L) by lia.
    split.
    + rewrite !run_behavior_accepted_returns_len; auto.
    + rewrite !run_behavior_accepted_unfold by assumption. cbv zeta.
      f_equal.
      set (m := memcpy (behavior_run_payload st) (offset * sizeof_payload L)
                       buf len).
      set (m' := memcpy (behavior_run_payload st) (offset * sizeof_payload L)
                        buf' len).
      assert (Hm : forall a, 0 <= a < sizeof_payload L -> m a = m' a).
      { intros a Ha. unfold m, m'.
        rewrite !memcpy_outside by nia. reflexivity. }
      assert (Hend : 0 <= to_uint16 (offset + len))
        by (unfold to_uint16; apply Z.mod_pos_bound; lia).
      subst L. cbn [sizeof_payload spec_layout] in *.
      assert (Hrun : run_condition (spec_layout dev_len) m
                       (to_uint16 (offset + len)) =
                     run_condition (spec_layout dev_len) m'
                       (to_uint16 (offset + len))).
      { unfold run_condition.
        cbn [sizeof_data behavior_dev_offset spec_layout].
        destruct (11 <? to_uint16 (offset + len)) eqn:Hhdr; [|reflexivity].
        apply Z.ltb_lt in Hhdr. rewrite Hm by lia. reflexivity. }
      assert (Hb : decode_binding (spec_layout dev_len) m =
                   decode_binding (spec_layout dev_len) m').
      { unfold decode_binding.
        cbn [param1_offset param2_offset behavior_dev_offset
             ZMK_SPLIT_RUN_BEHAVIOR_DEV_LEN spec_layout].
        rewrite !(load_uint_ext m m') by (intros; apply Hm; lia).
        now rewrite (c_string_ext m m') by (intros; apply Hm; lia). }
      assert (He : decode_event (spec_layout dev_len) m now =
                   decode_event (spec_layout dev_len) m' now).
      { unfold decode_event. cbn [position_offset position_size spec_layout].
        now rewrite (load_uint_ext m m') by (intros; apply Hm; lia). }
      assert (Hs : load_uint m (state_offset (spec_layout dev_len)) 1 =
                   load_uint m' (state_offset (spec_layout dev_len)) 1).
      { cbn [state_offset spec_layout].
        apply load_uint_ext. intros; apply Hm; lia. }
      now rewrite Hrun, Hb, He, Hs.
Qed.

(** X12.  The indicator write stores what it is given where it is told: an
    accepted write of [buf] at [offset] returns its length, reads back as
    [buf], leaves every other byte of [hid_indicators] alone, submits the
    notification work once and does not touch the run-behavior payload; and
    after a write that covers the whole object the callback of that work
    raises the event with the value written. *)
Theorem update_indicators_roundtrip size st buf offset :
  0 <= offset ->
  offset + Z.of_nat (length buf) <= size ->
  let r :=
    split_svc_update_indicators size st buf (Z.of_nat (length buf)) offset in
  fst r = Z.of_nat (length buf) /\
  load_bytes (hid_indicators (snd r)) offset (length buf) = buf /\
  (forall a, a < offset \/ offset + Z.of_nat (length buf) <= a ->
             hid_indicators (snd r) a = hid_indicators st a) /\
  indicators_work_submitted (snd r) = S (indicators_work_submitted st) /\
  behavior_run_payload (snd r) = behavior_run_payload st /\
  dispatched (snd r) = dispatched st /\
  (offset = 0 -> Z.of_nat (length buf) = size ->
     split_svc_update_indicators_callback (length buf) (snd r) = le_uint buf).
Proof.
  intros Hoff Hfit r. subst r. unfold split_svc_update_indicators.
  destruct (size <? offset + Z.of_nat (length buf)) eqn:Hrej;
    [apply Z.ltb_lt in Hrej; lia|].
  simpl. repeat split.
  - apply load_bytes_memcpy.
  - intros a Ha. now apply memcpy_outside.
  - intros -> _. unfold split_svc_update_indicators_callback, load_uint.
    simpl. now rewrite load_bytes_memcpy.
Qed.

End ServiceMoreFacts.

Module MirrorFacts.
Import ServiceMore.

Lemma MIN_int_size_t_bounds (a b : Z) :
  0 <= b -> 0 <= MIN_int_size_t a b <= b.
Proof.
  intros Hb. unfold MIN_int_size_t, to_size_t.
  pose proof (Z.mod_pos_bound a 4294967296 ltac:(lia)) as Hmod.
  destruct (a mod 4294967296 <? b) eqn:Hlt; [apply Z.ltb_lt in Hlt|]; lia.
Qed.



Section Mirror.

Variable sizeof_position_state : Z.
Variable sizeof_last_sensor_event : Z.
Variable bt_gatt_notify : nat -> list Z -> Z -> Z.
Hypothesis Hpos : 0 <= sizeof_position_state.
Hypothesis Hsens : 0 <= sizeof_last_sensor_event.

Local Abbreviation send_position :=
  (send_position_state_impl sizeof_position_state bt_gatt_notify).
Local Abbreviation send_sensor :=
  (send_sensor_state_impl sizeof_last_sensor_event bt_gatt_notify).

(** X13.  Neither producer ever writes outside the object it mirrors into,
    whatever length it is called with, negative ones included: every byte
    below address 0 or from the size of the object upwards is left as it
    was, and the other object is not touched at all. *)
Theorem send_state_never_overflows mi data len a :
  let mp :=
    send_position_state_impl sizeof_position_state bt_gatt_notify mi data len in
  let ms :=
    send_sensor_state_impl sizeof_last_sensor_event bt_gatt_notify mi data len in
  (a < 0 \/ sizeof_position_state <= a ->
     position_state mp a = position_state mi a) /\
  (a < 0 \/ sizeof_last_sensor_event <= a ->
     last_sensor_event ms a = last_sensor_event mi a) /\
  last_sensor_event mp = last_sensor_event mi /\
  position_state ms = position_state mi.
Proof.
  cbv zeta. unfold send_position_state_impl, send_sensor_state_impl.
  destruct (log_notify _ 1 data len mi) as [n1 e1].
  destruct (log_notify _ 8 data len mi) as [n8 e8]. simpl.
  pose proof (MIN_int_size_t_bounds len sizeof_position_state Hpos).
  pose proof (MIN_int_size_t_bounds len sizeof_last_sensor_event Hsens).
  repeat split; intros Ha; apply memcpy_outside; lia.
Qed.


End Mirror.

End MirrorFacts.

(** * Further properties of the USB HID callbacks *)

Lemma land_type_mask (w : Z) :
  0 <= w < 65536 -> Z.land w 0xff00 = 256 * (w / 256).
Proof.
  intros Hw. change 0xff00 with (Z.shiftl (Z.ones 8) 8).
  replace (256 * (w / 256)) with (Z.shiftl (Z.shiftr w 8) 8)
    by (rewrite Z.shiftl_mul_pow2, Z.shiftr_div_pow2 by lia;
        change (2 ^ 8) with 256; lia).
  apply Z.bits_inj'. intros n Hn. rewrite Z.land_spec.
  destruct (Z_lt_ge_dec n 8) as [Hlo|Hhi].
  - rewrite !Z.shiftl_spec_low by lia. apply andb_false_r.
  - rewrite !Z.shiftl_spec by lia. rewrite Z.shiftr_spec by lia.
    replace (n - 8 + 8) with n by lia.
    destruct (Z_lt_ge_dec n 16) as [Hin|Hout].
    + rewrite Z.ones_spec_low by lia. apply andb_true_r.
    + rewrite Z.ones_spec_high by lia. rewrite andb_false_r.
      symmetry. apply Z.testbit_false; [lia|].
      rewrite Z.div_small; [reflexivity|].
      split; [lia|].
      apply Z.lt_le_trans with (2 ^ 16); [lia|].
      apply Z.pow_le_mono_r; lia.
Qed.

Lemma land_id_mask (w : Z) : 0 <= w -> Z.land w 0x00ff = w mod 256.
Proof.
  intros Hw. change 0x00ff with (Z.ones 8).
  rewrite Z.land_ones by lia. reflexivity.
Qed.

(** A 16-bit [wValue] has type byte [t] and report ID [id] exactly when it is
    [256 * t + id]. *)
Lemma wValue_split (w t id : Z) :
  0 <= w < 65536 -> 0 <= id < 256 ->
  (Z.land w 0xff00 = 256 * t /\ Z.land w 0x00ff = id) <-> w = 256 * t + id.
Proof.
  intros Hw Hid. rewrite land_type_mask, land_id_mask by lia.
  pose proof (Z.div_mod w 256 ltac:(lia)).
  pose proof (Z.mod_pos_bound w 256 ltac:(lia)).
  split.
  - intros [H1 H2]. lia.
  - intros ->. split.
    + f_equal. symmetry. apply (Z.div_unique _ 256 t id); lia.
    + symmetry. apply (Z.mod_unique _ 256 t id); lia.
Qed.

Module UsbHidReportsFacts.
Import UsbHid UsbHidFacts UsbHidMore UsbHidReports.

Section Reports.

Variable CONFIG_ZMK_USB_BOOT : bool.
Variable CONFIG_ZMK_HID_INDICATORS : bool.
Variable KEYBOARD CONSUMER LEDS : Z.
Variable sizeof_report : report_ref -> Z.
Variable sizeof_led_report : Z.
Variable report_bytes : report_ref -> list Z.
Variable mps : nat.

Local Abbreviation get_report :=
  (get_report_cb CONFIG_ZMK_USB_BOOT KEYBOARD CONSUMER sizeof_report).
Local Abbreviation set_report :=
  (set_report_cb CONFIG_ZMK_HID_INDICATORS LEDS sizeof_led_report).
Local Abbreviation keyboard_report :=
  (get_keyboard_report CONFIG_ZMK_USB_BOOT sizeof_report).
Local Abbreviation send_keyboard :=
  (zmk_usb_hid_send_keyboard_report CONFIG_ZMK_USB_BOOT sizeof_report
     report_bytes mps).
Local Abbreviation send_consumer :=
  (zmk_usb_hid_send_consumer_report CONFIG_ZMK_USB_BOOT sizeof_report
     report_bytes mps).

(** Close the cases of a callback once its tests are decided. *)
Ltac close_case :=
  cbn [fst snd negb andb];
  repeat split; intros;
  try reflexivity;
  try (unfold ENOTSUP, EINVAL in *; lia);
  try congruence.

(** X15.  [get_report_cb] answers exactly two of the 65536 values of
    [wValue]: input type with the keyboard ID and input type with the
    consumer ID.  Every value whose type byte is not 1 gets [-ENOTSUP],
    whatever its ID; the remaining ones get [-EINVAL]; and on an error
    [*data] and [*len] are left as they were. *)
Theorem get_report_cb_answers hid_protocol wValue out :
  0 <= wValue < 65536 ->
  0 <= KEYBOARD < 256 ->
  0 <= CONSUMER < 256 ->
  let r := get_report hid_protocol wValue out in
  (fst r = 0 <-> wValue = 256 + KEYBOARD \/ wValue = 256 + CONSUMER) /\
  (fst r = - ENOTSUP <-> wValue / 256 <> 1) /\
  (fst r = 0 \/ fst r = - ENOTSUP \/ fst r = - EINVAL) /\
  (fst r <> 0 -> snd r = out) /\
  (wValue = 256 + KEYBOARD -> snd r = Some (keyboard_report hid_protocol)).
Proof.
  intros Hw Hk Hc r. subst r. unfold get_report_cb.
  unfold HID_GET_REPORT_TYPE_MASK, HID_GET_REPORT_ID_MASK,
    HID_REPORT_TYPE_INPUT.
  rewrite land_type_mask, land_id_mask by lia.
  pose proof (Z.div_mod wValue 256 ltac:(lia)) as Hdm.
  pose proof (Z.mod_pos_bound wValue 256 ltac:(lia)) as Hmod.
  destruct (256 * (wValue / 256) =? 256) eqn:Htype;
    [apply Z.eqb_eq in Htype|apply Z.eqb_neq in Htype];
    cbn [negb]; [|close_case].
  destruct (wValue mod 256 =? KEYBOARD) eqn:Hkb;
    [apply Z.eqb_eq in Hkb|apply Z.eqb_neq in Hkb]; [close_case|].
  destruct (wValue mod 256 =? CONSUMER) eqn:Hco;
    [apply Z.eqb_eq in Hco|apply Z.eqb_neq in Hco]; close_case.
Qed.

(** X16.  [set_report_cb] hands a report to the indicator code exactly when
    [wValue] is output type with the LED ID, the length is the size of the
    LED report and indicators are built in; then it returns 0 and passes the
    data on unchanged.  A wrong type gives [-ENOTSUP] before the ID or the
    length is looked at; anything else gives [-EINVAL]. *)
Theorem set_report_cb_accepts wValue len data :
  0 <= wValue < 65536 ->
  0 <= LEDS < 256 ->
  - 2147483648 <= len < 2147483648 ->
  0 <= sizeof_led_report < 2147483648 ->
  let r := set_report wValue len data in
  (fst r = 0 <->
     CONFIG_ZMK_HID_INDICATORS = true /\ wValue = 512 + LEDS /\
     len = sizeof_led_report) /\
  (snd r = Some data <-> fst r = 0) /\
  (snd r = None <-> fst r <> 0) /\
  (fst r = - ENOTSUP <-> wValue / 256 <> 2) /\
  (fst r = 0 \/ fst r = - ENOTSUP \/ fst r = - EINVAL).
Proof.
  intros Hw Hl Hlen Hsz r. subst r. unfold set_report_cb.
  unfold HID_GET_REPORT_TYPE_MASK, HID_GET_REPORT_ID_MASK,
    HID_REPORT_TYPE_OUTPUT.
  rewrite land_type_mask, land_id_mask by lia.
  pose proof (Z.div_mod wValue 256 ltac:(lia)) as Hdm.
  pose proof (Z.mod_pos_bound wValue 256 ltac:(lia)) as Hmod.
  assert (Hconv : to_size_t len = sizeof_led_report <-> len = sizeof_led_report).
  { unfold to_size_t. split; [|intros ->; apply Z.mod_small; lia].
    intros H.
    pose proof (Z.div_mod len 4294967296 ltac:(lia)) as Hd.
    pose proof (Z.mod_pos_bound len 4294967296 ltac:(lia)) as Hb.
    lia. }
  destruct (256 * (wValue / 256) =? 512) eqn:Htype;
    [apply Z.eqb_eq in Htype|apply Z.eqb_neq in Htype];
    cbn [negb]; [|close_case].
  destruct CONFIG_ZMK_HID_INDICATORS; cbn [andb]; [|close_case].
  destruct (wValue mod 256 =? LEDS) eqn:Hid;
    [apply Z.eqb_eq in Hid|apply Z.eqb_neq in Hid]; [|close_case].
  destruct (to_size_t len =? sizeof_led_report) eqn:Hsize;
    [apply Z.eqb_eq in Hsize; apply Hconv in Hsize
    |apply Z.eqb_neq in Hsize;
     assert (len <> sizeof_led_report) by (intros E; now apply Hsize, Hconv)];
    close_case.
Qed.

(** X17.  Which report reaches the queue.  With a status that lets reports
    through, room in the queue and report objects that fit a message:
    sending the keyboard report appends one message holding the boot report
    when boot support is built in and the protocol is not the report
    protocol, and the keyboard report otherwise; sending the consumer report
    appends one message holding it, except in boot protocol, where the call
    returns [-ENOTSUP] and changes nothing, whatever the USB status, the
    suspended one included. *)
Theorem protocol_selects_report hid_protocol status wakeup st :
  reaches_default status = true ->
  (length (usb_hid_msgq st) < usb_hid_msgq_max_msgs)%nat ->
  (forall r, sizeof_report r = Z.of_nat (length (report_bytes r))) ->
  (forall r, (length (report_bytes r) <= mps)%nat) ->
  (forall r, Z.of_nat (length (report_bytes r)) < 256) ->
  let selected :=
    if CONFIG_ZMK_USB_BOOT && negb (hid_protocol =? HID_PROTOCOL_REPORT)
    then BootReport else KeyboardReport in
  let queued r :=
    (0,
     set_work (k_work_schedule (usb_hid_work st) 0)
       (set_msgq
          (usb_hid_msgq st ++
           [{| data := report_bytes r ++
                       repeat 0 (mps - length (report_bytes r));
               UsbHid.len := sizeof_report r |}]) st)) in
  send_keyboard hid_protocol status wakeup st = queued selected /\
  (CONFIG_ZMK_USB_BOOT = true -> hid_protocol = HID_PROTOCOL_BOOT ->
     forall any_status,
       send_consumer hid_protocol any_status wakeup st = (- ENOTSUP, st)) /\
  (CONFIG_ZMK_USB_BOOT = false \/ hid_protocol <> HID_PROTOCOL_BOOT ->
     send_consumer hid_protocol status wakeup st = queued ConsumerReport).
Proof.
  intros Hs Hroom Hsize Hfit Hsmall selected queued.
  assert (Hsend : forall r,
            zmk_usb_hid_send_report mps status wakeup st (report_bytes r)
              (sizeof_report r) = queued r).
  { intros r. unfold queued. rewrite send_report_queued by assumption.
    rewrite Hsize, make_msg_fits by auto. reflexivity. }
  split; [|split].
  - unfold zmk_usb_hid_send_keyboard_report, get_keyboard_report.
    subst selected.
    destruct (CONFIG_ZMK_USB_BOOT && negb (hid_protocol =? HID_PROTOCOL_REPORT));
      apply Hsend.
  - intros Hboot -> any_status.
    unfold zmk_usb_hid_send_consumer_report. now rewrite Hboot.
  - intros Hno. unfold zmk_usb_hid_send_consumer_report.
    destruct (CONFIG_ZMK_USB_BOOT && (hid_protocol =? HID_PROTOCOL_BOOT))
      eqn:Hb; [|apply Hsend].
    apply andb_prop in Hb. destruct Hb as [Hb1 Hb2].
    apply Z.eqb_eq in Hb2. destruct Hno; congruence.
Qed.

End Reports.

Lemma get_report_cb_answers_witness :
  let r := get_report_cb true 1 2 (fun _ => 8) 1 0x0102 None in
  (fst r = 0 <-> 0x0102 = 256 + 1 \/ 0x0102 = 256 + 2) /\
  (fst r = - ENOTSUP <-> 0x0102 / 256 <> 1) /\
  (fst r = 0 \/ fst r = - ENOTSUP \/ fst r = - EINVAL) /\
  (fst r <> 0 -> snd r = None) /\
  (0x0102 = 256 + 1 ->
     snd r = Some (get_keyboard_report true (fun _ => 8) 1)).
Proof.
  apply (get_report_cb_answers true 1 2 (fun _ => 8) 1 0x0102 None); lia.
Defined.

Lemma set_report_cb_accepts_witness :
  let r := set_report_cb true 1 2 0x0201 2 [1; 5] in
  (fst r = 0 <-> true = true /\ 0x0201 = 512 + 1 /\ 2 = 2) /\
  (snd r = Some [1; 5] <-> fst r = 0) /\
  (snd r = None <-> fst r <> 0) /\
  (fst r = - ENOTSUP <-> 0x0201 / 256 <> 2) /\
  (fst r = 0 \/ fst r = - ENOTSUP \/ fst r = - EINVAL).
Proof.
  apply (set_report_cb_accepts true 1 2 0x0201 2 [1; 5]); lia.
Defined.

Lemma protocol_selects_report_witness :
  let bytes := fun r : report_ref =>
    match r with
    | BootReport => [0; 0; 4; 0; 0; 0; 0; 0]
    | KeyboardReport => [1; 0; 0; 4; 0; 0; 0; 0]
    | ConsumerReport => [2; 0; 0]
    end in
  let size := fun r => Z.of_nat (length (bytes r)) in
  zmk_usb_hid_send_keyboard_report true size bytes 8 HID_PROTOCOL_BOOT
    USB_DC_CONFIGURED 0 initial_state =
  (0,
   set_work (k_work_schedule (usb_hid_work initial_state) 0)
     (set_msgq
        (usb_hid_msgq initial_state ++
         [{| data := bytes BootReport ++
                     repeat 0 (8 - length (bytes BootReport));
             UsbHid.len := size BootReport |}]) initial_state)).
Proof.
  apply (protocol_selects_report true
           (fun r => Z.of_nat (length
              match r with
              | BootReport => [0; 0; 4; 0; 0; 0; 0; 0]
              | KeyboardReport => [1; 0; 0; 4; 0; 0; 0; 0]
              | ConsumerReport => [2; 0; 0]
              end))
           (fun r =>
              match r with
              | BootReport => [0; 0; 4; 0; 0; 0; 0; 0]
              | KeyboardReport => [1; 0; 0; 4; 0; 0; 0; 0]
              | ConsumerReport => [2; 0; 0]
              end)
           8 HID_PROTOCOL_BOOT USB_DC_CONFIGURED 0 initial_state).
  - reflexivity.
  - unfold usb_hid_msgq_max_msgs. simpl. lia.
  - reflexivity.
  - intros []; simpl; lia.
  - intros []; simpl; lia.
Defined.

End UsbHidReportsFacts.

Module ServiceMoreExamples.
Import Service ServiceMore ServiceMoreFacts MirrorFacts.

Lemma run_behavior_decodes_single_write_witness :
  let buf := encode_payload 5 10 0 1 "foo" in
  let r :=
    split_svc_run_behavior (spec_layout 9) accepting_engine 0 initial_state buf
                           (Z.of_nat (length buf)) 0 in
  let binding := {| behavior_dev := "foo"; param1 := 10; param2 := 0 |} in
  let event := {| position := 5; timestamp := 0 |} in
  fst r = Z.of_nat (length buf) /\
  dispatched (snd r) =
    dispatched initial_state ++
    [if 0 <? 1 then Pressed binding event else Released binding event].
Proof.
  apply (run_behavior_decodes_single_write 9 accepting_engine 0 initial_state
           5 10 0 1 "foo"); try lia.
  - simpl. repeat constructor; lia.
  - simpl. lia.
Defined.

Lemma run_behavior_offset_write_ignores_data_witness :
  let L := spec_layout 9 in
  let st :=
    snd (split_svc_run_behavior L accepting_engine 0 initial_state
           scenario_first_chunk 10 0) in
  let r := split_svc_run_behavior L accepting_engine 0 st
             scenario_second_chunk 5 10 in
  let r' := split_svc_run_behavior L accepting_engine 0 st [9; 9; 9; 9; 9] 5 10 in
  fst r = fst r' /\ dispatched (snd r) = dispatched (snd r').
Proof.
  apply (run_behavior_offset_write_ignores_data 9 accepting_engine 0
           (snd (split_svc_run_behavior (spec_layout 9) accepting_engine 0
                   initial_state scenario_first_chunk 10 0))
           scenario_second_chunk [9; 9; 9; 9; 9] 5 10); lia.
Defined.

Lemma update_indicators_roundtrip_witness :
  let r := split_svc_update_indicators 1 initial_state [3]
             (Z.of_nat (length [3])) 0 in
  fst r = Z.of_nat (length [3]) /\
  load_bytes (hid_indicators (snd r)) 0 (length [3]) = [3] /\
  (forall a, a < 0 \/ 0 + Z.of_nat (length [3]) <= a ->
             hid_indicators (snd r) a = hid_indicators initial_state a) /\
  indicators_work_submitted (snd r) =
    S (indicators_work_submitted initial_state) /\
  behavior_run_payload (snd r) = behavior_run_payload initial_state /\
  dispatched (snd r) = dispatched initial_state /\
  (0 = 0 -> Z.of_nat (length [3]) = 1 ->
     split_svc_update_indicators_callback (length [3]) (snd r) = le_uint [3]).
Proof.
  apply (update_indicators_roundtrip 1 initial_state [3] 0).
  - lia.
  - simpl. lia.
Defined.

Lemma send_state_never_overflows_witness :
  let mi := {| position_state := zero_memory;
               last_sensor_event := zero_memory;
               notified := [];
               notify_errors_logged := [] |} in
  let notify := fun (_ : nat) (_ : list Z) (_ : Z) => 0 in
  position_state (send_position_state_impl 4 notify mi [7; 7; 7; 7; 7; 7] (-1)) 4
  = position_state mi 4.
Proof.
  apply (send_state_never_overflows 4 8 (fun _ _ _ => 0) ltac:(lia) ltac:(lia)
           {| position_state := zero_memory;
              last_sensor_event := zero_memory;
              notified := [];
              notify_errors_logged := [] |} [7; 7; 7; 7; 7; 7] (-1) 4).
  right. lia.
Defined.


End ServiceMoreExamples.
